(** * daiquiri: the keyword-argument adapter, the logger registry, setup and
    the level helpers of [daiquiri/__init__.py], embedded in Rocq.

    Python objects that the program mutates or shares (dictionaries, adapter
    instances, handlers) live in explicit stores and are named by locations;
    exceptions are results of type [Result]. *)

From Stdlib Require Import ZArith String Ascii.
From stdpp Require Import gmap strings list fin_maps.

Local Open Scope string_scope.

(** ** Python values and exceptions *)

Definition loc := nat.

(** Immutable values: [None], booleans, integers and text. *)
Inductive atom :=
  | ANone
  | ABool (b : bool)
  | AInt (z : Z)
  | AStr (s : string).

(** The values that reach the program: an immutable value, or a reference to
    a dictionary object of the store. *)
Inductive value :=
  | VAtom (a : atom)
  | VRef (l : loc).

Abbreviation VNone := (VAtom ANone).
Abbreviation VBool b := (VAtom (ABool b)).
Abbreviation VInt z := (VAtom (AInt z)).
Abbreviation VStr s := (VAtom (AStr s)).

Global Instance atom_eq_dec : EqDecision atom.
Proof. solve_decision. Defined.

Global Instance value_eq_dec : EqDecision value.
Proof. solve_decision. Defined.

Inductive exn :=
  | KeyError
  | TypeError
  | ValueError
  | OSError.

Global Instance exn_eq_dec : EqDecision exn.
Proof. solve_decision. Defined.

(** A call either returns or raises. *)
Inductive Result (A : Type) :=
  | Ok (a : A)
  | Raise (e : exn).
Arguments Ok {A} a.
Arguments Raise {A} e.

Global Instance Result_bind : MBind Result := fun A B k r =>
  match r with
  | Ok a => k a
  | Raise e => Raise e
  end.

(** Loops over a snapshot list whose body may raise. *)
Fixpoint for_each {A S} (body : S -> A -> Result S) (xs : list A) (s : S)
  : Result S :=
  match xs with
  | [] => Ok s
  | x :: xs' => s' ← body s x; for_each body xs' s'
  end.

(** ** Dictionaries in the store *)

(** A [dict] with text keys; the store maps the identity of each dictionary
    object to its current content, so that two references to one object see
    each other's updates. *)
Abbreviation dict := (gmap string value).
Abbreviation heap := (gmap loc dict).

Definition deref (h : heap) (l : loc) : Result dict :=
  match h !! l with
  | Some d => Ok d
  | None => Raise TypeError
  end.

(** [dict(...)] / [d.copy()]: a new object, distinct from every live one. *)
Definition alloc (h : heap) (d : dict) : loc * heap :=
  let l := fresh (dom h) in (l, <[l := d]> h).

(** [d[k] = v] *)
Definition dict_setitem (h : heap) (l : loc) (k : string) (v : value)
  : Result heap :=
  d ← deref h l; Ok (<[l := <[k := v]> d]> h).

(** [d.pop(k)]: [KeyError] when [k] is absent. *)
Definition dict_pop (h : heap) (l : loc) (k : string) : Result (value * heap) :=
  d ← deref h l;
  match d !! k with
  | Some v => Ok (v, <[l := delete k d]> h)
  | None => Raise KeyError
  end.

(** [d.update(other)] for the values of this development, which are the
    immutable values and the references to dictionaries (lists and tuples of
    pairs, which [update] also accepts, are not among them): the entries of
    a mapping [other] are written over those of [d].  Text is iterated
    character by character, so only the empty text is accepted (it has no
    items); numbers, booleans and [None] are not iterable. *)
Definition dict_update (h : heap) (l : loc) (other : value) : Result heap :=
  match other with
  | VRef lo =>
      e ← deref h lo;
      d ← deref h l;
      Ok (<[l := e ∪ d]> h)
  | VAtom (AStr "") => Ok h
  | VAtom (AStr _) => Raise ValueError
  | VAtom _ => Raise TypeError
  end.

(** [list(d.keys())]: a snapshot of the keys. *)
Definition dict_keys (d : dict) : list string := (map_to_list d).*1.

(** ** KeywordArgumentAdapter *)

(** Key of a logger of the logging package: [None] is the root logger. *)
Abbreviation logger_key := (option string).

(** An adapter instance: the logger it wraps and its [extra] dictionary. *)
Record KeywordArgumentAdapter := mkAdapter {
  logger : logger_key;
  extra : loc
}.

(** Body of the loop of [process] that moves the keywords to [extra]. *)
Definition move_keyword (kwargs lx : loc) (h : heap) (name : string)
  : Result heap :=
  if decide (name = "exc_info") then Ok h
  else
    '(v, h1) ← dict_pop h kwargs name;
    dict_setitem h1 lx name v.

(** [KeywordArgumentAdapter.process(self, msg, kwargs)] *)
Definition process (self : KeywordArgumentAdapter) (msg : value) (kwargs : loc)
    (h : heap) : Result (heap * (value * loc)) :=
  d ← deref h (extra self);
  let '(lx, h1) := alloc h d in
  k ← deref h1 kwargs;
  h2 ← (if decide (is_Some (k !! "extra")) then
           '(e, h') ← dict_pop h1 kwargs "extra";
           dict_update h' lx e
         else Ok h1);
  k2 ← deref h2 kwargs;
  h3 ← for_each (move_keyword kwargs lx) (dict_keys k2) h2;
  h4 ← dict_setitem h3 lx "_daiquiri_extra" (VRef lx);
  h5 ← dict_setitem h4 kwargs "extra" (VRef lx);
  Ok (h5, (msg, kwargs)).

(** What [process] merges from the [extra] keyword of the keyword dictionary
    [K] stored at [lk]: nothing when the keyword is absent, and the content of
    the mapping it refers to otherwise, read once the keyword has been popped. *)
Definition extra_keyword (h : heap) (lk : loc) (K E : dict) : Prop :=
  match K !! "extra" with
  | None => E = ∅
  | Some (VRef le) => <[lk := delete "extra" K]> h !! le = Some E
  | Some (VAtom (AStr "")) => E = ∅
  | Some (VAtom _) => False
  end.

(** The call-site keywords that become structured fields. *)
Definition call_fields (K : dict) : dict :=
  delete "exc_info" (delete "extra" K).

(** ** The logging package, as far as the program uses it *)

(** [logging.getLogger(name)] for a name that is [None] or text: the root
    logger for [None], for the empty name and for the root logger's own name;
    the logger registered under the name otherwise. *)
Definition platform_logger (name : option string) : logger_key :=
  match name with
  | None => None
  | Some s => if decide (s = "" ∨ s = "root") then None else Some s
  end.

(** [logging.getLogger(name)] for any immutable value: falsy values give the
    root logger, any other value that is not text is refused. *)
Definition logging_getLogger (name : atom) : Result logger_key :=
  match name with
  | ANone => Ok None
  | AStr s => Ok (platform_logger (Some s))
  | ABool b => if b then Raise TypeError else Ok None
  | AInt z => if decide (z = 0%Z) then Ok None else Raise TypeError
  end.

(** A handler object, known by its identity. *)
Inductive Handler :=
  | HandlerObj (id : nat).

Global Instance Handler_eq_dec : EqDecision Handler.
Proof. solve_decision. Defined.

Definition handler_id (hd : Handler) : nat :=
  match hd with HandlerObj n => n end.

Record Logger := mkLogger {
  level : Z;
  handlers : list Handler
}.

Definition NOTSET : Z := 0.
Definition DEBUG : Z := 10.
Definition INFO : Z := 20.
Definition WARNING : Z := 30.
Definition ERROR : Z := 40.
Definition CRITICAL : Z := 50.

(** [logging._nameToLevel] *)
Definition _nameToLevel : list (string * Z) :=
  [ ("CRITICAL", CRITICAL); ("FATAL", CRITICAL); ("ERROR", ERROR);
    ("WARN", WARNING); ("WARNING", WARNING); ("INFO", INFO);
    ("DEBUG", DEBUG); ("NOTSET", NOTSET) ].

Fixpoint assoc (k : string) (l : list (string * Z)) : option Z :=
  match l with
  | [] => None
  | (k', v) :: l' => if decide (k = k') then Some v else assoc k l'
  end.

(** [logging._checkLevel(level)]: integers (booleans are integers) are taken
    as they are, text must be a registered level name. *)
Definition _checkLevel (lvl : atom) : Result Z :=
  match lvl with
  | AInt z => Ok z
  | ABool b => Ok (if b then 1%Z else 0%Z)
  | AStr s =>
      match assoc s _nameToLevel with
      | Some z => Ok z
      | None => Raise ValueError
      end
  | ANone => Raise TypeError
  end.

(** The hook that receives uncaught exceptions, [sys.excepthook]. *)
Inductive Hook :=
  | DefaultHook
  | LoggingHook (program_name : atom).

(** Process-wide logging state: the root logger, the named loggers (a logger
    that was never configured has level [NOTSET] and no handlers), the
    exception hook and the number of handler objects created so far. *)
Record Logging := mkLogging {
  root : Logger;
  loggerDict : gmap string Logger;
  excepthook : Hook;
  next_handler : nat
}.

Definition get_logger (st : Logging) (key : logger_key) : Logger :=
  match key with
  | None => root st
  | Some n => default (mkLogger NOTSET []) (loggerDict st !! n)
  end.

Definition set_logger (st : Logging) (key : logger_key) (lg : Logger) : Logging :=
  match key with
  | None => mkLogging lg (loggerDict st) (excepthook st) (next_handler st)
  | Some n =>
      mkLogging (root st) (<[n := lg]> (loggerDict st)) (excepthook st)
        (next_handler st)
  end.

(** A call that works on the process-wide logging state ends in some state
    and may have raised; what it changed before raising stays changed. *)
Definition Outcome : Type := Logging * option exn.

(** A loop over the logging state whose rounds may raise: the round that
    raises ends the loop, in the state the earlier rounds left. *)
Fixpoint for_each_round {A} (body : Logging → A → Result Logging)
    (xs : list A) (st : Logging) : Outcome :=
  match xs with
  | [] => (st, None)
  | x :: xs' =>
      match body st x with
      | Ok st' => for_each_round body xs' st'
      | Raise e => (st, Some e)
      end
  end.

(** Sequencing: the next call runs only if nothing was raised so far. *)
Definition and_then (o : Outcome) (f : Logging → Result Logging) : Outcome :=
  match o with
  | (st, Some e) => (st, Some e)
  | (st, None) =>
      match f st with
      | Ok st' => (st', None)
      | Raise e => (st, Some e)
      end
  end.

(** [Logger.setLevel(level)] *)
Definition Logger_setLevel (key : logger_key) (lvl : atom) (st : Logging)
  : Result Logging :=
  rv ← _checkLevel lvl;
  Ok (set_logger st key (mkLogger rv (handlers (get_logger st key)))).

(** [Logger.addHandler(hdlr)]: a handler is attached at most once. *)
Definition Logger_addHandler (key : logger_key) (hd : Handler) (st : Logging)
  : Logging :=
  let lg := get_logger st key in
  if decide (hd ∈ handlers lg) then st
  else set_logger st key (mkLogger (level lg) (handlers lg ++ [hd])).

(** The handler list after [addHandler]. *)
Definition attach_handler (hs : list Handler) (hd : Handler) : list Handler :=
  if decide (hd ∈ hs) then hs else (hs ++ [hd])%list.

(** [list.remove(x)]: the first occurrence goes. *)
Fixpoint list_remove (x : Handler) (l : list Handler) : list Handler :=
  match l with
  | [] => []
  | y :: l' => if decide (x = y) then l' else y :: list_remove x l'
  end.

(** [Logger.removeHandler(hdlr)] *)
Definition Logger_removeHandler (key : logger_key) (hd : Handler) (st : Logging)
  : Logging :=
  let lg := get_logger st key in
  if decide (hd ∈ handlers lg)
  then set_logger st key (mkLogger (level lg) (list_remove hd (handlers lg)))
  else st.

(** [logging.StreamHandler()]: a new handler object. *)
Definition StreamHandler (st : Logging) : Handler * Logging :=
  (HandlerObj (next_handler st),
   mkLogging (root st) (loggerDict st) (excepthook st) (S (next_handler st))).



(** ** Outputs *)

(** Modelled from the spec: the output module ([daiquiri.output]) is not part
    of the sources at hand.  An output exposes one operation,
    [add_to_logger(logger)], which installs the one or more handlers the
    output owns on the logger and returns nothing; it may instead raise when
    its destination is unusable. *)
Record Output := mkOutput {
  out_handlers : list Handler;
  out_error : option exn
}.

Definition add_to_logger (o : Output) (key : logger_key) (st : Logging)
  : Result Logging :=
  match out_error o with
  | Some e => Raise e
  | None => Ok (foldl (λ s hd, Logger_addHandler key hd s) st (out_handlers o))
  end.

(** ** The registry of adapters *)

(** The objects the registry works with: the dictionaries, the adapter
    instances that are alive, the weak-value dictionary [_LOGGERS] (a name
    refers to an adapter without keeping it alive) and the number of adapter
    instances created so far. *)
Record Registry := mkRegistry {
  dicts : heap;
  adapters : gmap loc KeywordArgumentAdapter;
  _LOGGERS : gmap (option string) loc;
  next_adapter : loc
}.

(** Reading a weak-value dictionary: an entry whose adapter is gone is as
    good as absent. *)
Definition weak_get (st : Registry) (name : option string) : option loc :=
  match _LOGGERS st !! name with
  | Some a => if decide (is_Some (adapters st !! a)) then Some a else None
  | None => None
  end.

(** [getLogger(name=None, **kwargs)]; the keywords of the call arrive as a
    new dictionary. *)
Definition getLogger (name : option string) (kwargs : dict) (st : Registry)
  : Result (loc * Registry) :=
  let '(lkw, ds) := alloc (dicts st) kwargs in
  let st1 := mkRegistry ds (adapters st) (_LOGGERS st) (next_adapter st) in
  let st2 :=
    match weak_get st1 name with
    | Some _ => st1
    | None =>
        let a := next_adapter st1 in
        let adapter := mkAdapter (platform_logger name) lkw in
        mkRegistry ds (<[a := adapter]> (adapters st1))
          (<[name := a]> (_LOGGERS st1)) (S a)
    end in
  match weak_get st2 name with
  | Some a => Ok (a, st2)
  | None => Raise KeyError
  end.

(** The interpreter reclaims an adapter that nothing refers to any more. *)
Definition reclaim (a : loc) (st : Registry) : Registry :=
  mkRegistry (dicts st) (delete a (adapters st)) (_LOGGERS st) (next_adapter st).

Definition empty_registry : Registry := mkRegistry ∅ ∅ ∅ 0.

(** What can happen to the registry: a call of [getLogger], a change to the
    dictionaries, or the reclamation of an adapter that is not among the
    [pinned] ones (those that are still referenced). *)
Inductive step (pinned : gset loc) : Registry → Registry → Prop :=
  | step_getLogger name kwargs st a st' :
      getLogger name kwargs st = Ok (a, st') → step pinned st st'
  | step_dicts st ds :
      step pinned st
        (mkRegistry ds (adapters st) (_LOGGERS st) (next_adapter st))
  | step_reclaim a st :
      a ∉ pinned → step pinned st (reclaim a st).

Definition reachable (st : Registry) : Prop := rtc (step ∅) empty_registry st.

(** What every reachable registry satisfies: identities of adapters are
    handed out in increasing order, every adapter that is alive is registered
    under a name, and no adapter is registered under two names. *)
Record registry_inv (st : Registry) : Prop := mkRegistryInv {
  inv_alive_bound : ∀ a, is_Some (adapters st !! a) → a < next_adapter st;
  inv_entry_bound : ∀ n a, _LOGGERS st !! n = Some a → a < next_adapter st;
  inv_registered :
    ∀ a, is_Some (adapters st !! a) → ∃ n, _LOGGERS st !! n = Some a;
  inv_one_name :
    ∀ n1 n2 a, _LOGGERS st !! n1 = Some a → _LOGGERS st !! n2 = Some a → n1 = n2
}.

(** ** setup *)




(** The five stages of [setup]. *)
Definition setup_bootstrap (st : Logging) : Logging :=
  match handlers (get_logger st None) with
  | [] => let '(hd, st') := StreamHandler st in Logger_addHandler None hd st'
  | _ :: _ => st
  end.

Definition setup_install_hook (program_name : atom) (st : Logging) : Logging :=
  mkLogging (root st) (loggerDict st) (LoggingHook program_name)
    (next_handler st).

Definition setup_remove_handlers (st : Logging) : Logging :=
  foldl (λ s hd, Logger_removeHandler None hd s) st
    (handlers (get_logger st None)).

Definition setup_add_outputs (outputs : list Output) (st : Logging)
  : Outcome :=
  for_each_round (λ s o, add_to_logger o None s) outputs st.

(** The body of [setup], statement by statement: the states the process is
    in after each of the five stages, in the order in which they run; a
    stage that raises ends the list, and the exception comes with it. *)
Definition setup_trace (lvl : atom) (outputs : list Output)
    (program_name : atom) (st : Logging) : list Logging * option exn :=
  let st1 := setup_bootstrap st in
  let st2 := setup_install_hook program_name st1 in
  let st3 := setup_remove_handlers st2 in
  match setup_add_outputs outputs st3 with
  | (st4, Some e) => ([st1; st2; st3; st4], Some e)
  | (st4, None) =>
      match Logger_setLevel None lvl st4 with
      | Ok st5 => ([st1; st2; st3; st4; st5], None)
      | Raise e => ([st1; st2; st3; st4], Some e)
      end
  end.

(** [setup(level, outputs, program_name)]: the state in which the body
    ends, and the exception it raised, if any. *)
Definition setup (lvl : atom) (outputs : list Output) (program_name : atom)
    (st : Logging) : Outcome :=
  let '(states, r) := setup_trace lvl outputs program_name st in
  (List.last states st, r).

(** ** Default log levels *)

(** [str.upper()] on text made of ASCII characters, where it puts the
    letters [a] to [z] in upper case and leaves the rest.  What [str.upper]
    does to other characters is not modelled: the properties below that
    depend on it are stated for ASCII text, or for text whose upper case is
    a level name, which is ASCII text. *)
Definition upper_ascii (c : ascii) : ascii :=
  let n := nat_of_ascii c in
  if (97 <=? n)%nat && (n <=? 122)%nat then ascii_of_nat (n - 32) else c.

Fixpoint upper (s : string) : string :=
  match s with
  | EmptyString => EmptyString
  | String c s' => String (upper_ascii c) (upper s')
  end.

(** Text made of ASCII characters only. *)
Fixpoint ascii_text (s : string) : bool :=
  match s with
  | EmptyString => true
  | String c s' => (nat_of_ascii c <? 128)%nat && ascii_text s'
  end.

Fixpoint strip_prefix (sep s : string) : option string :=
  match sep with
  | EmptyString => Some s
  | String a sep' =>
      match s with
      | EmptyString => None
      | String b s' => if decide (a = b) then strip_prefix sep' s' else None
      end
  end.

(** The text before and after the first occurrence of [sep]. *)
Fixpoint partition (sep s : string) : option (string * string) :=
  match strip_prefix sep s with
  | Some rest => Some (EmptyString, rest)
  | None =>
      match s with
      | EmptyString => None
      | String c s' =>
          match partition sep s' with
          | Some (a, b) => Some (String c a, b)
          | None => None
          end
      end
  end.

(** [s.split(sep, 1)]: the empty separator is refused. *)
Definition split1 (s sep : string) : Result (list atom) :=
  if decide (sep = "") then Raise ValueError
  else Ok (match partition sep s with
           | Some (a, b) => [AStr a; AStr b]
           | None => [AStr s]
           end).

(** An iterable hands out its items one by one, and producing an item may
    raise (a generator computes each item when it is asked for). *)
Abbreviation iterable A := (list (Result A)).

(** One round of the loop of [set_default_log_levels]: the item is unpacked
    into exactly two values. *)
Definition normalize_level (lvl : atom) : atom :=
  match lvl with
  | AStr s => AStr (upper s)
  | _ => lvl
  end.

Definition set_level_item (st : Logging) (item : Result (list atom))
  : Result Logging :=
  it ← item;
  match it with
  | [lg; lvl] =>
      let lvl := normalize_level lvl in
      key ← logging_getLogger lg;
      Logger_setLevel key lvl st
  | _ => Raise ValueError
  end.

(** The level that a pair asks for, in the words of the specification: a
    number is the level itself; a text names a level of the logging
    package, whatever the case of its letters. *)
Definition level_meant (lvl : atom) : option Z :=
  match lvl with
  | AInt z => Some z
  | ABool b => Some (if b then 1%Z else 0%Z)
  | AStr s => assoc (upper s) _nameToLevel
  | ANone => None
  end.

(** The level names in lower case. *)
Definition lower_level_names : list (string * Z) :=
  [ ("critical", CRITICAL); ("fatal", CRITICAL); ("error", ERROR);
    ("warn", WARNING); ("warning", WARNING); ("info", INFO);
    ("debug", DEBUG); ("notset", NOTSET) ].

(** [set_default_log_levels(loggers_and_log_levels)] *)
Definition set_default_log_levels
    (loggers_and_log_levels : iterable (list atom)) (st : Logging)
  : Outcome :=
  for_each_round set_level_item loggers_and_log_levels st.

(** [parse_and_set_default_log_levels(default_log_levels, separator)] *)
Definition parse_and_set_default_log_levels (default_log_levels : list string)
    (separator : string) (st : Logging) : Outcome :=
  set_default_log_levels
    ((λ pair, split1 pair separator) <$> default_log_levels) st.

(** ** Sample objects *)

(** A store with the bound fields of an adapter at [1], the keyword
    dictionary of a call at [2] and the mapping passed as [extra] at [3]. *)
Definition sample_defaults : dict := {[ "app" := VStr "svc" ]}.
Definition sample_extra : dict := {[ "app" := VStr "other"; "req" := VInt 1 ]}.
Definition sample_kwargs : dict :=
  {[ "extra" := VRef 3; "user" := VInt 7; "exc_info" := VBool true ]}.
Definition sample_heap : heap :=
  {[ 1%nat := sample_defaults; 2%nat := sample_kwargs; 3%nat := sample_extra ]}.
Definition sample_adapter : KeywordArgumentAdapter := mkAdapter None 1.

(** Two outputs with one handler each, created before the logging state
    below, whose root logger has the level the logging package starts with. *)
Definition sample_outputs : list Output :=
  [ mkOutput [HandlerObj 0] None; mkOutput [HandlerObj 1] None ].
Definition sample_logging : Logging :=
  mkLogging (mkLogger WARNING []) ∅ DefaultHook 2.



(** The registry after a first request, for the name [svc] with one
    keyword. *)
Definition sample_registry : Registry :=
  match getLogger (Some "svc") {[ "env" := VStr "prod" ]} empty_registry with
  | Ok (_, st) => st
  | Raise _ => empty_registry
  end.

(** * Properties *)

Section process_facts.

Lemma deref_Some (h : heap) l d : h !! l = Some d → deref h l = Ok d.
Proof. unfold deref. by intros ->. Qed.

Lemma dict_keys_elem (d : dict) k : k ∈ dict_keys d ↔ is_Some (d !! k).
Proof.
  unfold dict_keys. rewrite list_elem_of_fmap. split.
  - intros [[k' v] [-> Hin]]. apply elem_of_map_to_list in Hin. by exists v.
  - intros [v Hv]. exists (k, v). split; [done|]. by apply elem_of_map_to_list.
Qed.

Lemma dict_keys_NoDup (d : dict) : NoDup (dict_keys d).
Proof. apply NoDup_fst_map_to_list. Qed.

Local Ltac key_cases :=
  repeat case_decide; try done; exfalso;
  repeat match goal with
         | H : _ ∧ _ |- _ => destruct H
         | H : ¬ (_ ∧ _) |- _ => apply not_and_l in H; destruct H
         | H : _ ∈ _ :: _ |- _ => apply elem_of_cons in H; destruct H
         | H : ¬ (_ ∈ _ :: _) |- _ => rewrite elem_of_cons in H
         end; subst; tauto.

Lemma move_keyword_exc_info (lk lx : loc) (h : heap) :
  move_keyword lk lx h "exc_info" = Ok h.
Proof. reflexivity. Qed.

Lemma move_keyword_field (lk lx : loc) (h : heap) (K X : dict) name v :
  name ≠ "exc_info" → lk ≠ lx →
  h !! lk = Some K → h !! lx = Some X → K !! name = Some v →
  move_keyword lk lx h name
  = Ok (<[lx := <[name := v]> X]> (<[lk := delete name K]> h)).
Proof.
  intros Hname Hne HK HX Hv. unfold move_keyword.
  destruct (decide (name = "exc_info")) as [|_]; [done|].
  unfold dict_pop, dict_setitem. rewrite (deref_Some _ _ _ HK). simpl.
  rewrite Hv. simpl.
  rewrite (deref_Some _ lx X); [done|]. by rewrite lookup_insert_ne.
Qed.

(** The loop of [process], for any duplicate-free snapshot [ks] of keys that
    are present: the keywords of [ks] other than [exc_info] leave the keyword
    dictionary and are written to the new dictionary; nothing else changes. *)
Lemma move_keywords_spec (lk lx : loc) (ks : list string) :
  lk ≠ lx → NoDup ks →
  ∀ (h : heap) (K X : dict),
    h !! lk = Some K → h !! lx = Some X →
    (∀ k, k ∈ ks → is_Some (K !! k)) →
    ∃ h' K' X',
      for_each (move_keyword lk lx) ks h = Ok h' ∧
      h' !! lk = Some K' ∧ h' !! lx = Some X' ∧
      (∀ l, l ≠ lk → l ≠ lx → h' !! l = h !! l) ∧
      (∀ k, K' !! k =
            if decide (k ∈ ks ∧ k ≠ "exc_info") then None else K !! k) ∧
      (∀ k, X' !! k =
            if decide (k ∈ ks ∧ k ≠ "exc_info") then K !! k else X !! k).
Proof.
  intros Hne Hnd. induction Hnd as [|name ks Hnotin Hnd IH];
    intros h K X HK HX Hin; simpl.
  - exists h, K, X. split_and!; try done; intros k; case_decide as Hd; try done; destruct Hd as [Hd _]; inversion Hd.
  - destruct (decide (name = "exc_info")) as [Hexc|Hexc].
    + subst name. rewrite move_keyword_exc_info. simpl.
      destruct (IH h K X HK HX)
        as (h' & K' & X' & Hrun & HK' & HX' & Hfr & HKs & HXs).
      { intros k Hk. apply Hin. by right. }
      exists h', K', X'. split_and!; try done.
      * intros k. rewrite HKs. key_cases.
      * intros k. rewrite HXs. key_cases.
    + destruct (Hin name) as [v Hv]; [by left|].
      rewrite (move_keyword_field lk lx h K X name v); [|done..]. simpl.
      destruct (IH (<[lx := <[name := v]> X]> (<[lk := delete name K]> h))
                  (delete name K) (<[name := v]> X))
        as (h' & K' & X' & Hrun & HK' & HX' & Hfr & HKs & HXs).
      { rewrite lookup_insert_ne; [|done]. by rewrite lookup_insert_eq. }
      { by rewrite lookup_insert_eq. }
      { intros k Hk. rewrite lookup_delete_ne; [|set_solver]. apply Hin. by right. }
      exists h', K', X'. split_and!; try done.
      * intros l H1 H2. rewrite Hfr; [|done..].
        rewrite lookup_insert_ne; [|done]. by rewrite lookup_insert_ne.
      * intros k. rewrite HKs. destruct (decide (k = name)) as [->|Hkn].
        -- rewrite lookup_delete_eq.
           key_cases.
        -- rewrite lookup_delete_ne; [|done].
           key_cases.
      * intros k. rewrite HXs. destruct (decide (k = name)) as [->|Hkn].
        -- rewrite lookup_insert_eq.
           key_cases.
        -- rewrite lookup_delete_ne; [|done]. rewrite lookup_insert_ne; [|done].
           key_cases.
Qed.

(** Closed form of [process]: it returns, with the message it was given and
    the keyword dictionary object it was given; the merged dictionary is a
    new object [lx]; only the keyword dictionary and the new object differ
    from the store before the call. *)
Lemma process_spec (self : KeywordArgumentAdapter) (msg : value) (lk : loc)
    (h : heap) (D K E : dict) :
  h !! extra self = Some D →
  h !! lk = Some K →
  extra_keyword h lk K E →
  let lx := fresh (dom h) in
  ∃ h',
    process self msg lk h = Ok (h', (msg, lk)) ∧
    h !! lx = None ∧
    h' !! lx = Some (<["_daiquiri_extra" := VRef lx]> (call_fields K ∪ (E ∪ D))) ∧
    h' !! lk = Some (<["extra" := VRef lx]>
                       (filter (λ kv, kv.1 = "exc_info") K)) ∧
    (∀ l, l ≠ lk → l ≠ lx → h' !! l = h !! l).
Proof.
  intros HD HK HE lx.
  assert (Hfresh : h !! lx = None).
  { apply not_elem_of_dom. apply is_fresh. }
  assert (Hlk : lk ≠ lx) by (intros ->; congruence).
  unfold process. rewrite (deref_Some _ _ _ HD). simpl. fold lx.
  rewrite (deref_Some _ lk K); [|by rewrite lookup_insert_ne]. simpl.
  (* the [extra] keyword *)
  set (h1 := <[lx := D]> h).
  set (K2 := delete "extra" K).
  assert (∃ h2, (if decide (is_Some (K !! "extra")) then
                   dict_pop h1 lk "extra" ≫= (λ '(e, h'), dict_update h' lx e)
                 else Ok h1) = Ok h2
                ∧ h2 !! lk = Some K2 ∧ h2 !! lx = Some (E ∪ D)
                ∧ ∀ l, l ≠ lk → l ≠ lx → h2 !! l = h !! l)
    as (h2 & -> & HK2 & HX2 & Hfr2).
  { unfold extra_keyword in HE. destruct (K !! "extra") as [v|] eqn:Hx.
    - rewrite decide_True; [|by eexists].
      unfold dict_pop. rewrite (deref_Some h1 lk K); [|by unfold h1; rewrite lookup_insert_ne].
      simpl. rewrite Hx. simpl.
      assert (Hh1lx : <[lk:=delete "extra" K]> h1 !! lx = Some D).
      { rewrite lookup_insert_ne; [|done]. unfold h1. by rewrite lookup_insert_eq. }
      destruct v as [[| | |s]|le]; try done.
      + destruct s; [|done]. subst E. simpl.
        eexists. split; [done|]. split_and!.
        * by rewrite lookup_insert_eq.
        * rewrite Hh1lx. f_equal. by rewrite (left_id_L ∅ (∪)).
        * intros l H1 H2. rewrite lookup_insert_ne; [|done].
          unfold h1. by rewrite lookup_insert_ne.
      + assert (Hle : le ≠ lx).
        { intros ->. rewrite lookup_insert_ne in HE; [|done]. congruence. }
        simpl. rewrite (deref_Some _ le E).
        2:{ destruct (decide (le = lk)) as [->|Hlek].
            - rewrite lookup_insert_eq. by rewrite lookup_insert_eq in HE.
            - rewrite lookup_insert_ne; [|done]. rewrite lookup_insert_ne in HE; [|done].
              unfold h1. by rewrite lookup_insert_ne. }
        simpl. rewrite (deref_Some _ _ _ Hh1lx). simpl.
        eexists. split; [done|]. split_and!.
        * rewrite lookup_insert_ne; [|done]. by rewrite lookup_insert_eq.
        * by rewrite lookup_insert_eq.
        * intros l H1 H2. rewrite !lookup_insert_ne; [|done..].
          unfold h1. by rewrite lookup_insert_ne.
    - rewrite decide_False; [|by intros [? ?]]. subst E.
      exists h1. split; [done|]. unfold h1. split_and!.
      + rewrite lookup_insert_ne; [|done]. rewrite HK. f_equal.
        unfold K2. by rewrite delete_id.
      + rewrite lookup_insert_eq. f_equal. by rewrite (left_id_L ∅ (∪)).
      + intros l H1 H2. by rewrite lookup_insert_ne. }
  simpl. rewrite (deref_Some _ _ _ HK2). simpl.
  (* the loop over the remaining keywords *)
  destruct (move_keywords_spec lk lx (dict_keys K2) Hlk (dict_keys_NoDup K2)
              h2 K2 (E ∪ D) HK2 HX2)
    as (h3 & K3 & X3 & -> & HK3 & HX3 & Hfr3 & HK3s & HX3s).
  { intros k. by rewrite dict_keys_elem. }
  simpl. unfold dict_setitem.
  rewrite (deref_Some _ _ _ HX3). simpl.
  rewrite (deref_Some _ lk K3); [|by rewrite lookup_insert_ne]. simpl.
  eexists. split; [done|]. split_and!; [done|..].
  - rewrite lookup_insert_ne; [|done]. rewrite lookup_insert_eq. f_equal.
    apply map_eq. intros k. destruct (decide (k = "_daiquiri_extra")) as [->|Hk].
    { by rewrite !lookup_insert_eq. }
    rewrite !lookup_insert_ne; [|done..]. rewrite HX3s.
    unfold call_fields. fold K2.
    rewrite (lookup_union (delete "exc_info" K2)).
    destruct (decide (k = "exc_info")) as [->|Hke].
    + rewrite lookup_delete_eq. rewrite decide_False; [|by intros [_ ?]].
      by rewrite (left_id_L None union).
    + rewrite lookup_delete_ne; [|done]. case_decide as Hd.
      * destruct Hd as [Hd _]. apply dict_keys_elem in Hd as [v Hv].
        rewrite Hv. by destruct ((E ∪ D) !! k).
      * assert (K2 !! k = None) as ->.
        { apply eq_None_not_Some. intros Hs. apply Hd. split; [|done].
          by apply dict_keys_elem. }
        by rewrite (left_id_L None union).
  - rewrite lookup_insert_eq. f_equal.
    apply map_eq. intros k. destruct (decide (k = "extra")) as [->|Hk].
    { by rewrite !lookup_insert_eq. }
    rewrite !lookup_insert_ne; [|done..]. rewrite HK3s.
    destruct (decide (k = "exc_info")) as [->|Hke].
    + rewrite decide_False; [|by intros [_ ?]].
      unfold K2. rewrite lookup_delete_ne; [|done].
      destruct (K !! "exc_info") as [v|] eqn:Hv.
      * symmetry. by apply map_lookup_filter_Some.
      * symmetry. apply map_lookup_filter_None. left. done.
    + case_decide as Hd.
      * symmetry. apply map_lookup_filter_None. right. intros v _. done.
      * assert (K2 !! k = None) as ->.
        { apply eq_None_not_Some. intros Hs. apply Hd. split; [|done].
          by apply dict_keys_elem. }
        symmetry. apply map_lookup_filter_None. right. intros v _. done.
  - intros l H1 H2. rewrite !lookup_insert_ne; [|done..].
    rewrite Hfr3; [|done..]. by apply Hfr2.
Qed.

(** Reading the keywords and the merged mapping back from the store. *)
Lemma read_back (h' : heap) (lk lx0 lx : loc) (K0 M0 M : dict) :
  h' !! lk = Some (<["extra" := VRef lx0]> K0) →
  h' !! lx0 = Some M0 →
  (h' !! lk) ≫= (λ K' : dict, K' !! "extra") = Some (VRef lx) →
  h' !! lx = Some M →
  lx = lx0 ∧ M = M0.
Proof.
  intros HK HM Hx HM'. rewrite HK in Hx. simpl in Hx.
  rewrite lookup_insert_eq in Hx. injection Hx as <-.
  split; [done|]. congruence.
Qed.

End process_facts.

(** ** The adapter: claims C1, C2, C8 and C10 *)





(** C2 fails as stated.  With the private key among the bound fields and in
    the mapping passed as [extra], the two collide, and the merged mapping
    holds neither value under that key: it holds a reference to itself. *)
Lemma process_private_key_counterexample :
  let D : dict := {[ "_daiquiri_extra" := VInt 1 ]} in
  let E : dict := {[ "_daiquiri_extra" := VInt 2 ]} in
  let K : dict := {[ "extra" := VRef 3 ]} in
  let h : heap := {[ 1%nat := D; 2%nat := K; 3%nat := E ]} in
  ¬ ∃ h' lx M,
      process (mkAdapter None 1) (VStr "m") 2 h = Ok (h', (VStr "m", 2%nat)) ∧
      (h' !! 2%nat) ≫= (λ K' : dict, K' !! "extra") = Some (VRef lx) ∧
      h' !! lx = Some M ∧
      ∀ k v, E !! k = Some v → call_fields K !! k = None → M !! k = Some v.
Proof.
  intros D E K h (h' & lx & M & Hrun & Hx & HM & Hall).
  destruct (process_spec (mkAdapter None 1) (VStr "m") 2 h D K E)
    as (h0 & Hrun0 & _ & HM0 & HK0 & _);
    [vm_compute; reflexivity ..|].
  assert (h0 = h') as -> by (timeout 20 congruence).
  destruct (read_back h' 2 _ lx _ _ M HK0 HM0 Hx HM) as [-> ->].
  specialize (Hall "_daiquiri_extra" (VInt 2) eq_refl eq_refl).
  rewrite lookup_insert_eq in Hall. discriminate.
Qed.

(** C2, amended: when the keywords hold a mapping E under [extra] (an object
    other than the keyword dictionary itself), then under every key other
    than the private key [_daiquiri_extra] the merged mapping has the value
    of the call-site keyword of that name (other than [extra] and
    [exc_info]) if there is one, else the value in E if there is one, else
    the bound default. *)
Theorem process_merge_precedence (self : KeywordArgumentAdapter) (msg : value)
    (lk le : loc) (h : heap) (D K E : dict) :
  h !! extra self = Some D →
  h !! lk = Some K →
  K !! "extra" = Some (VRef le) →
  le ≠ lk →
  h !! le = Some E →
  ∃ h' lx M K',
    process self msg lk h = Ok (h', (msg, lk)) ∧
    h' !! lk = Some K' ∧ K' !! "extra" = Some (VRef lx) ∧ h' !! lx = Some M ∧
    ∀ k, k ≠ "_daiquiri_extra" →
      M !! k = match call_fields K !! k with
               | Some v => Some v
               | None => match E !! k with
                         | Some v => Some v
                         | None => D !! k
                         end
               end.
Proof.
  intros HD HK Hx Hne HE.
  assert (HEK : extra_keyword h lk K E).
  { unfold extra_keyword. rewrite Hx. by rewrite lookup_insert_ne. }
  destruct (process_spec self msg lk h D K E HD HK HEK)
    as (h' & Hrun & _ & HM & HK' & _).
  eexists h', _, _, _. split_and!; [exact Hrun | exact HK' | | exact HM | ].
  - by rewrite lookup_insert_eq.
  - intros k Hk. rewrite lookup_insert_ne; [|done].
    rewrite !lookup_union.
    destruct (call_fields K !! k), (E !! k), (D !! k); done.
Qed.

Lemma process_merge_precedence_witness :
  sample_heap !! extra sample_adapter = Some sample_defaults ∧
  sample_heap !! 2%nat = Some sample_kwargs ∧
  sample_kwargs !! "extra" = Some (VRef 3) ∧
  3%nat ≠ 2%nat ∧
  sample_heap !! 3%nat = Some sample_extra ∧
  ∃ h' lx M K',
    process sample_adapter (VStr "m") 2 sample_heap
    = Ok (h', (VStr "m", 2%nat)) ∧
    h' !! 2%nat = Some K' ∧ K' !! "extra" = Some (VRef lx) ∧
    h' !! lx = Some M ∧
    ∀ k, k ≠ "_daiquiri_extra" →
      M !! k = match call_fields sample_kwargs !! k with
               | Some v => Some v
               | None => match sample_extra !! k with
                         | Some v => Some v
                         | None => sample_defaults !! k
                         end
               end.
Proof.
  split; [reflexivity|]. split; [reflexivity|]. split; [reflexivity|].
  split; [lia|]. split; [reflexivity|].
  apply (process_merge_precedence sample_adapter (VStr "m") 2 3 sample_heap
           sample_defaults sample_kwargs sample_extra);
    first [reflexivity | lia].
Defined.

(** C8 fails as stated.  After the call the keyword dictionary that was
    passed in no longer has the content it had. *)
Lemma process_mutates_kwargs_counterexample :
  ¬ ∃ h',
      process sample_adapter (VStr "m") 2 sample_heap
      = Ok (h', (VStr "m", 2%nat)) ∧
      h' !! 1%nat = sample_heap !! 1%nat ∧
      h' !! 2%nat = sample_heap !! 2%nat ∧
      h' !! 3%nat = sample_heap !! 3%nat.
Proof.
  intros (h' & Hrun & _ & H2 & _).
  destruct (process_spec sample_adapter (VStr "m") 2 sample_heap
              sample_defaults sample_kwargs sample_extra)
    as (h0 & Hrun0 & _ & _ & HK0 & _);
    [vm_compute; reflexivity ..|].
  assert (h0 = h') as -> by (timeout 20 congruence).
  assert (Heq : Some (<["extra":=VRef (fresh (dom sample_heap))]>
                  (filter (λ kv : string * value, kv.1 = "exc_info")
                     sample_kwargs)) = Some sample_kwargs).
  { rewrite <- HK0. exact H2. }
  apply (inj Some) in Heq.
  assert (Hu : (<["extra":=VRef (fresh (dom sample_heap))]>
                  (filter (λ kv : string * value, kv.1 = "exc_info")
                     sample_kwargs) : dict) !! "user"
               = sample_kwargs !! "user") by (by rewrite Heq).
  rewrite lookup_insert_ne in Hu; [|done].
  rewrite map_lookup_filter_None_2 in Hu; [discriminate|].
  right. intros v _. done.
Qed.

(** C8, amended: [process] changes no object other than the keyword
    dictionary it is given.  The bound fields of the adapter and the mapping
    passed as [extra] are unchanged whenever they are objects other than
    that dictionary; the keyword dictionary itself is updated in place, and
    ends up holding the merged mapping under [extra] and [exc_info] if it
    had it. *)
Theorem process_frame (self : KeywordArgumentAdapter) (msg : value)
    (lk : loc) (h : heap) (D K E : dict) :
  h !! extra self = Some D →
  h !! lk = Some K →
  extra_keyword h lk K E →
  ∃ h',
    process self msg lk h = Ok (h', (msg, lk)) ∧
    (∀ l, l ≠ lk → is_Some (h !! l) → h' !! l = h !! l) ∧
    (extra self ≠ lk → h' !! extra self = Some D) ∧
    (∀ le, K !! "extra" = Some (VRef le) → le ≠ lk → h' !! le = Some E) ∧
    h' !! lk = Some (<["extra" := VRef (fresh (dom h))]>
                       (filter (λ kv, kv.1 = "exc_info") K)).
Proof.
  intros HD HK HE.
  destruct (process_spec self msg lk h D K E HD HK HE)
    as (h' & Hrun & Hnew & HM & HK' & Hfr).
  assert (Hold : ∀ l, l ≠ lk → is_Some (h !! l) → h' !! l = h !! l).
  { intros l Hl [d Hd]. apply Hfr; [done|]. intros ->. congruence. }
  exists h'. split_and!; [exact Hrun | exact Hold | | | exact HK'].
  - intros Hne. rewrite Hold; [done | done | by eexists].
  - intros le Hx Hne. unfold extra_keyword in HE. rewrite Hx in HE.
    rewrite lookup_insert_ne in HE; [|done].
    rewrite Hold; [done | done | by eexists].
Qed.

Lemma process_frame_witness :
  sample_heap !! extra sample_adapter = Some sample_defaults ∧
  sample_heap !! 2%nat = Some sample_kwargs ∧
  extra_keyword sample_heap 2 sample_kwargs sample_extra ∧
  ∃ h',
    process sample_adapter (VStr "m") 2 sample_heap
    = Ok (h', (VStr "m", 2%nat)) ∧
    (∀ l, l ≠ 2%nat → is_Some (sample_heap !! l) → h' !! l = sample_heap !! l) ∧
    (extra sample_adapter ≠ 2%nat →
     h' !! extra sample_adapter = Some sample_defaults) ∧
    (∀ le, sample_kwargs !! "extra" = Some (VRef le) → le ≠ 2%nat →
           h' !! le = Some sample_extra) ∧
    h' !! 2%nat = Some (<["extra" := VRef (fresh (dom sample_heap))]>
                          (filter (λ kv, kv.1 = "exc_info") sample_kwargs)).
Proof.
  split; [reflexivity|]. split; [reflexivity|]. split; [reflexivity|].
  apply (process_frame sample_adapter (VStr "m") 2 sample_heap
           sample_defaults sample_kwargs sample_extra); reflexivity.
Defined.

(** C10: after [process] returns, the mapping that the keywords hold under
    [extra] is a new object of the store, and the value of its key
    [_daiquiri_extra] is a reference to that very object. *)
Theorem process_extra_is_self_referential (self : KeywordArgumentAdapter)
    (msg : value) (lk : loc) (h : heap) (D K E : dict) :
  h !! extra self = Some D →
  h !! lk = Some K →
  extra_keyword h lk K E →
  ∃ h' lx M K',
    process self msg lk h = Ok (h', (msg, lk)) ∧
    h !! lx = None ∧
    h' !! lk = Some K' ∧ K' !! "extra" = Some (VRef lx) ∧
    h' !! lx = Some M ∧ M !! "_daiquiri_extra" = Some (VRef lx).
Proof.
  intros HD HK HE.
  destruct (process_spec self msg lk h D K E HD HK HE)
    as (h' & Hrun & Hnew & HM & HK' & _).
  eexists h', _, _, _.
  split_and!; [exact Hrun | exact Hnew | exact HK' | | exact HM | ];
    by rewrite lookup_insert_eq.
Qed.

Lemma process_extra_is_self_referential_witness :
  sample_heap !! extra sample_adapter = Some sample_defaults ∧
  sample_heap !! 2%nat = Some sample_kwargs ∧
  extra_keyword sample_heap 2 sample_kwargs sample_extra ∧
  ∃ h' lx M K',
    process sample_adapter (VStr "m") 2 sample_heap
    = Ok (h', (VStr "m", 2%nat)) ∧
    sample_heap !! lx = None ∧
    h' !! 2%nat = Some K' ∧ K' !! "extra" = Some (VRef lx) ∧
    h' !! lx = Some M ∧ M !! "_daiquiri_extra" = Some (VRef lx).
Proof.
  split; [reflexivity|]. split; [reflexivity|]. split; [reflexivity|].
  apply (process_extra_is_self_referential sample_adapter (VStr "m") 2
           sample_heap sample_defaults sample_kwargs sample_extra);
    reflexivity.
Defined.

(** ** The registry: claims C4 and C9 *)

Section registry_facts.

Lemma weak_get_Some (st : Registry) name a :
  weak_get st name = Some a ↔
  _LOGGERS st !! name = Some a ∧ is_Some (adapters st !! a).
Proof.
  unfold weak_get. destruct (_LOGGERS st !! name) as [b|].
  - case_decide as Hd; split.
    + by intros [= ->].
    + by intros [[= ->] _].
    + done.
    + by intros [[= ->] ?].
  - split; [done | by intros [? _]].
Qed.

(** A request for a name whose adapter is alive returns that adapter and
    creates none. *)
Lemma getLogger_hit (st : Registry) name kwargs a :
  weak_get st name = Some a →
  getLogger name kwargs st
  = Ok (a, mkRegistry (alloc (dicts st) kwargs).2 (adapters st) (_LOGGERS st)
             (next_adapter st)).
Proof.
  intros Hw. unfold getLogger, alloc. simpl.
  change (weak_get (mkRegistry _ (adapters st) (_LOGGERS st) _) name)
    with (weak_get st name).
  rewrite Hw.
  change (weak_get (mkRegistry _ (adapters st) (_LOGGERS st) _) name)
    with (weak_get st name).
  by rewrite Hw.
Qed.

(** A request for a name without a live adapter creates one, with the next
    identity, around the keyword dictionary of the call. *)
Lemma getLogger_miss (st : Registry) name kwargs :
  weak_get st name = None →
  getLogger name kwargs st
  = Ok (next_adapter st,
        mkRegistry (alloc (dicts st) kwargs).2
          (<[next_adapter st :=
               mkAdapter (platform_logger name) (alloc (dicts st) kwargs).1]>
             (adapters st))
          (<[name := next_adapter st]> (_LOGGERS st))
          (S (next_adapter st))).
Proof.
  intros Hw. unfold getLogger, alloc. simpl.
  change (weak_get (mkRegistry _ (adapters st) (_LOGGERS st) _) name)
    with (weak_get st name).
  rewrite Hw. unfold weak_get at 1. simpl.
  rewrite lookup_insert_eq. rewrite decide_True; [done|].
  rewrite lookup_insert_eq. by eexists.
Qed.

Lemma registry_inv_empty : registry_inv empty_registry.
Proof.
  split; simpl.
  - intros a [x Hx]. by rewrite lookup_empty in Hx.
  - intros n a Hn. by rewrite lookup_empty in Hn.
  - intros a [x Hx]. by rewrite lookup_empty in Hx.
  - intros n1 n2 a Hn. by rewrite lookup_empty in Hn.
Qed.

Lemma registry_inv_getLogger (st st' : Registry) name kwargs a :
  registry_inv st → getLogger name kwargs st = Ok (a, st') → registry_inv st'.
Proof.
  intros [Hb He Hr Hf] Hrun.
  destruct (weak_get st name) as [b|] eqn:Hw.
  - rewrite (getLogger_hit _ _ _ _ Hw) in Hrun. injection Hrun as <- <-.
    by split.
  - rewrite (getLogger_miss _ _ _ Hw) in Hrun. injection Hrun as <- <-.
    split; simpl.
    + intros a [x Hx]. apply lookup_insert_Some in Hx as [[<- _]|[_ Hx]]; [lia|].
      assert (a < next_adapter st) by (apply Hb; by eexists). lia.
    + intros n a Hn. apply lookup_insert_Some in Hn as [[_ <-]|[_ Hn]]; [lia|].
      apply He in Hn. lia.
    + intros a [x Hx]. apply lookup_insert_Some in Hx as [[<- _]|[Hne Hx]].
      * exists name. by rewrite lookup_insert_eq.
      * destruct (Hr a) as [n Hn]; [by eexists|]. exists n.
        rewrite lookup_insert_ne; [done|]. intros <-.
        assert (weak_get st name = Some a); [|congruence].
        apply weak_get_Some. split; [done | by eexists].
    + intros n1 n2 a H1 H2.
      apply lookup_insert_Some in H1 as [[E1 <-]|[N1 H1]];
        apply lookup_insert_Some in H2 as [[E2 E]|[N2 H2]].
      * congruence.
      * apply He in H2. lia.
      * subst a. apply He in H1. lia.
      * by eapply Hf.
Qed.

Lemma registry_inv_step (pinned : gset loc) (st st' : Registry) :
  registry_inv st → step pinned st st' → registry_inv st'.
Proof.
  intros Hinv Hstep. destruct Hstep as [name kwargs st a st' Hrun| st ds | a st Ha].
  - by eapply registry_inv_getLogger.
  - destruct Hinv as [Hb He Hr Hf]. by split.
  - destruct Hinv as [Hb He Hr Hf]. split; simpl; try done.
    + intros b [x Hx]. apply lookup_delete_Some in Hx as [_ Hx].
      apply Hb. by eexists.
    + intros b [x Hx]. apply lookup_delete_Some in Hx as [_ Hx].
      apply Hr. by eexists.
Qed.

Lemma registry_inv_steps (pinned : gset loc) (st st' : Registry) :
  registry_inv st → rtc (step pinned) st st' → registry_inv st'.
Proof.
  intros Hinv Hsteps. induction Hsteps as [|st st1 st2 Hstep _ IH]; [done|].
  apply IH. by eapply registry_inv_step.
Qed.

Lemma reachable_inv (st : Registry) : reachable st → registry_inv st.
Proof. intros Hr. eapply registry_inv_steps; [apply registry_inv_empty|exact Hr]. Qed.

Lemma step_next_adapter (pinned : gset loc) (st st' : Registry) :
  step pinned st st' → (next_adapter st ≤ next_adapter st')%nat.
Proof.
  intros [name kwargs st0 a st0' Hrun| st0 ds | a st0 Ha]; simpl; try lia.
  destruct (weak_get st0 name) as [b|] eqn:Hw.
  - rewrite (getLogger_hit _ _ _ _ Hw) in Hrun. injection Hrun as <- <-.
    simpl. lia.
  - rewrite (getLogger_miss _ _ _ Hw) in Hrun. injection Hrun as <- <-.
    simpl. lia.
Qed.

Lemma steps_next_adapter (pinned : gset loc) (st st' : Registry) :
  rtc (step pinned) st st' → (next_adapter st ≤ next_adapter st')%nat.
Proof.
  intros Hsteps. induction Hsteps as [|st st1 st2 Hstep _ IH]; [lia|].
  apply step_next_adapter in Hstep. lia.
Qed.

(** As long as the adapter registered under a name is not reclaimed, it stays
    the adapter registered under that name. *)
Lemma pinned_step_keeps (st st' : Registry) name a :
  registry_inv st → weak_get st name = Some a → step {[a]} st st' →
  weak_get st' name = Some a.
Proof.
  intros Hinv Hw Hstep. pose proof Hw as Hw0.
  apply weak_get_Some in Hw as [Hreg Hlive].
  destruct Hstep as [name' kwargs st b st' Hrun| st ds | b st Hb].
  - destruct (weak_get st name') as [c|] eqn:Hw'.
    + rewrite (getLogger_hit _ _ _ _ Hw') in Hrun. injection Hrun as <- <-.
      apply weak_get_Some. by split.
    + rewrite (getLogger_miss _ _ _ Hw') in Hrun. injection Hrun as <- <-.
      assert (name' ≠ name) by (intros ->; congruence).
      assert (a < next_adapter st) by (by apply (inv_alive_bound st Hinv)).
      apply weak_get_Some. simpl. split.
      * by rewrite lookup_insert_ne.
      * rewrite lookup_insert_ne; [done|lia].
  - apply weak_get_Some. by split.
  - apply weak_get_Some. simpl. split; [done|].
    rewrite lookup_delete_ne; [done|]. set_solver.
Qed.

Lemma pinned_steps_keep (st st' : Registry) name a :
  registry_inv st → weak_get st name = Some a → rtc (step {[a]}) st st' →
  weak_get st' name = Some a.
Proof.
  intros Hinv Hw Hsteps. induction Hsteps as [|st st1 st2 Hstep _ IH]; [done|].
  apply IH.
  - by eapply registry_inv_step.
  - by eapply pinned_step_keeps.
Qed.

(** [getLogger] returns an adapter that is alive and registered under the
    name; it never raises. *)
Lemma getLogger_returns (st : Registry) name kwargs :
  ∃ a st', getLogger name kwargs st = Ok (a, st') ∧ weak_get st' name = Some a
           ∧ (weak_get st name = Some a ∨
              weak_get st name = None ∧ a = next_adapter st).
Proof.
  destruct (weak_get st name) as [b|] eqn:Hw.
  - eexists _, _. split; [by apply getLogger_hit|]. split; [|by left].
    apply weak_get_Some in Hw. by apply weak_get_Some.
  - eexists _, _. split; [by apply getLogger_miss|]. split; [|by right].
    apply weak_get_Some. simpl. rewrite !lookup_insert_eq. split; [done|by eexists].
Qed.

End registry_facts.

(** C4: in a registry reached by calls of [getLogger] and reclamations, a
    request for a name returns, without raising, an adapter that is alive.
    As long as that adapter is not reclaimed, every later request for the
    name returns the same instance.  At any later time every adapter that is
    alive is the one registered under exactly one name, so no name has two
    live adapters.  Once the adapter has been reclaimed, a later request for
    the name returns another instance, alive and registered under the name,
    and newly created when no other request has replaced it yet. *)
Theorem getLogger_identity_stable (st : Registry) (name : option string)
    (kwargs : dict) :
  reachable st →
  ∃ a st1,
    getLogger name kwargs st = Ok (a, st1) ∧
    is_Some (adapters st1 !! a) ∧
    (∀ st2 kwargs', rtc (step {[a]}) st1 st2 →
       ∃ st3, getLogger name kwargs' st2 = Ok (a, st3)) ∧
    (∀ st2, rtc (step ∅) st1 st2 →
       ∀ b, is_Some (adapters st2 !! b) →
         ∃ n, weak_get st2 n = Some b ∧
              ∀ n', weak_get st2 n' = Some b → n' = n) ∧
    (∀ st2 kwargs', rtc (step ∅) st1 st2 → adapters st2 !! a = None →
       ∃ b st3, getLogger name kwargs' st2 = Ok (b, st3) ∧ b ≠ a ∧
                is_Some (adapters st3 !! b) ∧ weak_get st3 name = Some b ∧
                (weak_get st2 name = None → adapters st2 !! b = None)).
Proof.
  intros Hreach. pose proof (reachable_inv st Hreach) as Hinv.
  destruct (getLogger_returns st name kwargs) as (a & st1 & Hrun & Hw1 & _).
  assert (Hinv1 : registry_inv st1) by (by eapply registry_inv_getLogger).
  pose proof Hw1 as Hw1'. apply weak_get_Some in Hw1' as [Hreg1 Hlive1].
  exists a, st1. split_and!; [exact Hrun | exact Hlive1 | | | ].
  - intros st2 kwargs' Hsteps.
    pose proof (pinned_steps_keep st1 st2 name a Hinv1 Hw1 Hsteps) as Hw2.
    eexists. by apply getLogger_hit.
  - intros st2 Hsteps b Hb.
    pose proof (registry_inv_steps ∅ st1 st2 Hinv1 Hsteps) as Hinv2.
    destruct (inv_registered st2 Hinv2 b Hb) as [n Hn].
    exists n. split.
    + apply weak_get_Some. by split.
    + intros n' Hn'. apply weak_get_Some in Hn' as [Hn' _].
      by eapply (inv_one_name st2 Hinv2).
  - intros st2 kwargs' Hsteps Hdead.
    pose proof (registry_inv_steps ∅ st1 st2 Hinv1 Hsteps) as Hinv2.
    pose proof (steps_next_adapter ∅ st1 st2 Hsteps) as Hmono.
    pose proof (inv_alive_bound st1 Hinv1 a Hlive1) as Hlt.
    destruct (getLogger_returns st2 name kwargs')
      as (b & st3 & Hrun3 & Hw3 & Hcase).
    exists b, st3. split; [exact Hrun3|].
    pose proof Hw3 as Hw3'. apply weak_get_Some in Hw3' as [_ Hlive3].
    split_and!; [ | exact Hlive3 | exact Hw3 | ].
    + destruct Hcase as [Hhit | [_ ->]].
      * apply weak_get_Some in Hhit as [_ [x Hx]]. intros ->. congruence.
      * lia.
    + intros Hnone. destruct Hcase as [Hhit | [_ ->]]; [congruence|].
      apply eq_None_not_Some. intros Hs.
      pose proof (inv_alive_bound st2 Hinv2 _ Hs). lia.
Qed.

Lemma getLogger_identity_stable_witness :
  reachable empty_registry ∧
  ∃ a st1,
    getLogger (Some "svc") ∅ empty_registry = Ok (a, st1) ∧
    is_Some (adapters st1 !! a) ∧
    (∀ st2 kwargs', rtc (step {[a]}) st1 st2 →
       ∃ st3, getLogger (Some "svc") kwargs' st2 = Ok (a, st3)) ∧
    (∀ st2, rtc (step ∅) st1 st2 →
       ∀ b, is_Some (adapters st2 !! b) →
         ∃ n, weak_get st2 n = Some b ∧
              ∀ n', weak_get st2 n' = Some b → n' = n) ∧
    (∀ st2 kwargs', rtc (step ∅) st1 st2 → adapters st2 !! a = None →
       ∃ b st3, getLogger (Some "svc") kwargs' st2 = Ok (b, st3) ∧ b ≠ a ∧
                is_Some (adapters st3 !! b) ∧
                weak_get st3 (Some "svc") = Some b ∧
                (weak_get st2 (Some "svc") = None → adapters st2 !! b = None)).
Proof.
  split; [apply rtc_refl|].
  apply (getLogger_identity_stable empty_registry (Some "svc") ∅).
  apply rtc_refl.
Defined.

(** C9 fails as stated.  The first request for a name, made with a keyword,
    gives an adapter whose bound fields are not empty. *)
Lemma getLogger_bound_fields_counterexample :
  ¬ ∃ a st' adapter,
      getLogger (Some "svc") {[ "env" := VStr "prod" ]} empty_registry
      = Ok (a, st') ∧
      adapters st' !! a = Some adapter ∧
      dicts st' !! extra adapter = Some ∅.
Proof.
  intros (a & st' & adapter & Hrun & Ha & Hd).
  vm_compute in Hrun. injection Hrun as <- <-.
  vm_compute in Ha. injection Ha as <-.
  vm_compute in Hd. discriminate.
Qed.

(** C9, amended: a request for a name that has no live adapter creates an
    adapter that did not exist before, around the logger of the logging
    package for that name, with the keywords of the request as its bound
    fields (none when the request has no keywords), and registers it under
    the name. *)
Theorem getLogger_first_request (st : Registry) (name : option string)
    (kwargs : dict) :
  reachable st →
  weak_get st name = None →
  ∃ a st' adapter,
    getLogger name kwargs st = Ok (a, st') ∧
    adapters st !! a = None ∧
    adapters st' !! a = Some adapter ∧
    logger adapter = platform_logger name ∧
    dicts st !! extra adapter = None ∧
    dicts st' !! extra adapter = Some kwargs ∧
    (kwargs = ∅ → dicts st' !! extra adapter = Some ∅) ∧
    weak_get st' name = Some a.
Proof.
  intros Hreach Hw. pose proof (reachable_inv st Hreach) as Hinv.
  eexists _, _, _. split; [by apply getLogger_miss|]. simpl.
  split_and!.
  - apply eq_None_not_Some. intros Hs.
    pose proof (inv_alive_bound st Hinv _ Hs). lia.
  - by rewrite lookup_insert_eq.
  - done.
  - apply not_elem_of_dom. apply is_fresh.
  - by rewrite lookup_insert_eq.
  - intros ->. by rewrite lookup_insert_eq.
  - apply weak_get_Some. simpl. rewrite !lookup_insert_eq.
    split; [done | by eexists].
Qed.

Lemma getLogger_first_request_witness :
  reachable empty_registry ∧
  weak_get empty_registry (Some "svc") = None ∧
  ∃ a st' adapter,
    getLogger (Some "svc") {[ "env" := VStr "prod" ]} empty_registry
    = Ok (a, st') ∧
    adapters empty_registry !! a = None ∧
    adapters st' !! a = Some adapter ∧
    logger adapter = platform_logger (Some "svc") ∧
    dicts empty_registry !! extra adapter = None ∧
    dicts st' !! extra adapter = Some {[ "env" := VStr "prod" ]} ∧
    (({[ "env" := VStr "prod" ]} : dict) = ∅ →
     dicts st' !! extra adapter = Some ∅) ∧
    weak_get st' (Some "svc") = Some a.
Proof.
  split; [apply rtc_refl|]. split; [reflexivity|].
  apply (getLogger_first_request empty_registry (Some "svc")
           {[ "env" := VStr "prod" ]}); [apply rtc_refl | reflexivity].
Defined.

(** ** setup: claim C3 *)

Section setup_facts.

Lemma list_remove_absent (hd : Handler) (l : list Handler) :
  hd ∉ l → list_remove hd l = l.
Proof.
  induction l as [|y l IH]; [done|]. intros Hnot. simpl.
  destruct (decide (hd = y)) as [->|Hne].
  - exfalso. apply Hnot. by left.
  - f_equal. apply IH. intros Hin. apply Hnot. by right.
Qed.

Lemma Logger_addHandler_root (hd : Handler) (st : Logging) :
  Logger_addHandler None hd st
  = mkLogging (mkLogger (level (root st)) (attach_handler (handlers (root st)) hd))
      (loggerDict st) (excepthook st) (next_handler st).
Proof.
  destruct st as [[lv hs] ld eh nh]. unfold Logger_addHandler, attach_handler.
  simpl. by destruct (decide (hd ∈ hs)).
Qed.

Lemma Logger_removeHandler_root (hd : Handler) (st : Logging) :
  Logger_removeHandler None hd st
  = mkLogging (mkLogger (level (root st)) (list_remove hd (handlers (root st))))
      (loggerDict st) (excepthook st) (next_handler st).
Proof.
  destruct st as [[lv hs] ld eh nh]. unfold Logger_removeHandler. simpl.
  destruct (decide (hd ∈ hs)) as [|Hnot]; [done|].
  by rewrite list_remove_absent.
Qed.

Lemma addHandlers_root (l : list Handler) (st : Logging) :
  foldl (λ s hd, Logger_addHandler None hd s) st l
  = mkLogging (mkLogger (level (root st)) (foldl attach_handler (handlers (root st)) l))
      (loggerDict st) (excepthook st) (next_handler st).
Proof.
  revert st. induction l as [|hd l IH]; intros st; simpl.
  - by destruct st as [[lv hs] ld eh nh].
  - rewrite IH. by rewrite Logger_addHandler_root.
Qed.

(** Removing, one by one, the handlers of a snapshot of the list empties it. *)
Lemma removeHandlers_root (l : list Handler) (st : Logging) :
  handlers (root st) = l →
  foldl (λ s hd, Logger_removeHandler None hd s) st l
  = mkLogging (mkLogger (level (root st)) []) (loggerDict st) (excepthook st)
      (next_handler st).
Proof.
  revert st. induction l as [|hd l IH]; intros st Hl; simpl.
  - destruct st as [[lv hs] ld eh nh]. simpl in *. by subst.
  - rewrite IH.
    + by rewrite Logger_removeHandler_root.
    + rewrite Logger_removeHandler_root. simpl. rewrite Hl. simpl.
      by rewrite decide_True.
Qed.

Lemma setup_remove_handlers_spec (st : Logging) :
  setup_remove_handlers st
  = mkLogging (mkLogger (level (root st)) []) (loggerDict st) (excepthook st)
      (next_handler st).
Proof. unfold setup_remove_handlers. by apply removeHandlers_root. Qed.

Lemma add_to_logger_ok (o : Output) (key : logger_key) (st : Logging) :
  out_error o = None →
  add_to_logger o key st
  = Ok (foldl (λ s hd, Logger_addHandler key hd s) st (out_handlers o)).
Proof. unfold add_to_logger. by intros ->. Qed.

Lemma setup_add_outputs_spec (outputs : list Output) (st : Logging) :
  Forall (λ o, out_error o = None) outputs →
  setup_add_outputs outputs st
  = (mkLogging
       (mkLogger (level (root st))
          (foldl attach_handler (handlers (root st))
             (mjoin (out_handlers <$> outputs))))
       (loggerDict st) (excepthook st) (next_handler st), None).
Proof.
  unfold setup_add_outputs. intros Hok. revert st.
  induction Hok as [|o outputs Ho _ IH]; intros st; simpl.
  - by destruct st as [[lv hs] ld eh nh].
  - rewrite (add_to_logger_ok o None st Ho). simpl.
    rewrite IH. rewrite addHandlers_root. simpl. by rewrite foldl_app.
Qed.

Lemma attach_handlers_elem (l hs : list Handler) hd :
  hd ∈ foldl attach_handler hs l ↔ hd ∈ hs ∨ hd ∈ l.
Proof.
  revert hs. induction l as [|x l IH]; intros hs; simpl.
  - split; [by left | intros [H|H]; [done | by apply elem_of_nil in H]].
  - rewrite IH. unfold attach_handler. rewrite elem_of_cons.
    destruct (decide (x ∈ hs)) as [Hin|Hnot].
    + split; [intros [H|H]; auto | intros [H|[->|H]]; auto].
    + rewrite elem_of_app, list_elem_of_singleton.
      split; [intros [[H|H]|H]; auto | intros [H|[H|H]]; auto].
Qed.

Lemma attach_handlers_NoDup (l hs : list Handler) :
  NoDup hs → NoDup (foldl attach_handler hs l).
Proof.
  revert hs. induction l as [|x l IH]; intros hs Hnd; simpl; [done|].
  apply IH. unfold attach_handler. destruct (decide (x ∈ hs)); [done|].
  apply NoDup_app. split_and!; [done | | apply NoDup_singleton].
  intros y Hy Hx. apply list_elem_of_singleton in Hx. by subst.
Qed.

Lemma attach_handlers_distinct (l hs : list Handler) :
  NoDup (hs ++ l)%list → foldl attach_handler hs l = (hs ++ l)%list.
Proof.
  revert hs. induction l as [|x l IH]; intros hs Hnd; simpl.
  - by rewrite app_nil_r.
  - assert (Hx : x ∉ hs).
    { apply NoDup_app in Hnd as (_ & Hdisj & _). intros Hin.
      apply (Hdisj x Hin). by left. }
    unfold attach_handler at 2. rewrite decide_False; [|done].
    rewrite IH; [by rewrite <- app_assoc|]. by rewrite <- app_assoc.
Qed.

Lemma setup_bootstrap_frame (st : Logging) :
  level (root (setup_bootstrap st)) = level (root st) ∧
  loggerDict (setup_bootstrap st) = loggerDict st ∧
  excepthook (setup_bootstrap st) = excepthook st.
Proof.
  unfold setup_bootstrap. simpl. destruct (handlers (root st)); [|done].
  simpl. by rewrite Logger_addHandler_root.
Qed.

Lemma for_each_round_app {A} (body : Logging → A → Result Logging)
    (xs ys : list A) (st : Logging) :
  for_each_round body (xs ++ ys) st
  = match for_each_round body xs st with
    | (st1, None) => for_each_round body ys st1
    | (st1, Some e) => (st1, Some e)
    end.
Proof.
  revert st. induction xs as [|x xs IH]; intros st; simpl; [done|].
  destruct (body st x) as [st1|e]; [apply IH | done].
Qed.

(** The state in which [setup] leaves the loop over the outputs. *)
Lemma setup_before_outputs (program_name : atom) (st : Logging) :
  setup_remove_handlers (setup_install_hook program_name (setup_bootstrap st))
  = mkLogging (mkLogger (level (root st)) []) (loggerDict st)
      (LoggingHook program_name) (next_handler (setup_bootstrap st)).
Proof.
  rewrite setup_remove_handlers_spec. simpl.
  destruct (setup_bootstrap_frame st) as (-> & -> & _). done.
Qed.

(** What [setup] comes to: the outputs are attached in the state that the
    first three stages leave, and the level is set if none of them raised. *)
Lemma setup_unfold (lvl : atom) (outputs : list Output) (program_name : atom)
    (st : Logging) :
  setup lvl outputs program_name st
  = and_then
      (setup_add_outputs outputs
         (setup_remove_handlers
            (setup_install_hook program_name (setup_bootstrap st))))
      (Logger_setLevel None lvl).
Proof.
  unfold setup, setup_trace, and_then.
  destruct (setup_add_outputs outputs _) as [st4 [e|]]; [done|].
  by destruct (Logger_setLevel None lvl st4).
Qed.



End setup_facts.

(** C3: when the outputs attach without raising and the level is one that
    the logging package accepts, [setup] returns and leaves on the root
    logger exactly the handlers of the outputs, each once, in the order of
    the outputs; the handler created for the bootstrap is not among them;
    the level of the root logger is the level given; the exception hook is
    the one for [program_name].  The stages run in this order.  Bootstrap:
    nothing changes if the root logger has a handler, else a new handler is
    put on it; either way it has one afterwards, and the hook is still the
    old one.  Hook: the hook is installed while the root logger still has
    its handlers.  Removal: the root logger has no handler left, under the
    new hook and the old level.  Outputs: the handlers are the final ones,
    and the level is still the old one.  Level: the level is set last. *)
Theorem setup_installs_outputs (lvl : atom) (z : Z) (outputs : list Output)
    (program_name : atom) (st : Logging) :
  _checkLevel lvl = Ok z →
  Forall (λ o, out_error o = None) outputs →
  ∃ st1 st2 st3 st4 st',
    setup lvl outputs program_name st = (st', None) ∧
    (∀ hd, hd ∈ handlers (root st') ↔
           ∃ o, o ∈ outputs ∧ hd ∈ out_handlers o) ∧
    NoDup (handlers (root st')) ∧
    (NoDup (mjoin (out_handlers <$> outputs)) →
     handlers (root st') = mjoin (out_handlers <$> outputs)) ∧
    ((∀ o hd, o ∈ outputs → hd ∈ out_handlers o →
              (handler_id hd < next_handler st)%nat) →
     HandlerObj (next_handler st) ∉ handlers (root st')) ∧
    level (root st') = z ∧
    excepthook st' = LoggingHook program_name ∧
    setup_trace lvl outputs program_name st
    = ([st1; st2; st3; st4; st'], None) ∧
    (handlers (root st) ≠ [] → st1 = st) ∧
    (handlers (root st) = [] →
     handlers (root st1) = [HandlerObj (next_handler st)] ∧
     next_handler st1 = S (next_handler st)) ∧
    level (root st1) = level (root st) ∧
    excepthook st1 = excepthook st ∧
    handlers (root st1) ≠ [] ∧
    excepthook st2 = LoggingHook program_name ∧
    root st2 = root st1 ∧
    handlers (root st3) = [] ∧
    level (root st3) = level (root st) ∧
    excepthook st3 = LoggingHook program_name ∧
    handlers (root st4) = handlers (root st') ∧
    level (root st4) = level (root st) ∧
    excepthook st4 = LoggingHook program_name.
Proof.
  intros Hlvl Hok.
  assert (Hmem : ∀ hd, hd ∈ foldl attach_handler [] (mjoin (out_handlers <$> outputs))
                       ↔ ∃ o, o ∈ outputs ∧ hd ∈ out_handlers o).
  { intros hd. rewrite attach_handlers_elem. rewrite list_elem_of_join.
    split.
    - intros [H|(l & Hhd & Hl)]; [by apply elem_of_nil in H|].
      apply list_elem_of_fmap in Hl as (o & -> & Ho). by exists o.
    - intros (o & Ho & Hhd). right. exists (out_handlers o). split; [done|].
      apply list_elem_of_fmap. by exists o. }
  destruct (setup_bootstrap_frame st) as (Hb1 & Hb2 & Hb3).
  assert (Hboot : (handlers (root st) ≠ [] → setup_bootstrap st = st) ∧
                  (handlers (root st) = [] →
                   handlers (root (setup_bootstrap st))
                   = [HandlerObj (next_handler st)] ∧
                   next_handler (setup_bootstrap st) = S (next_handler st)) ∧
                  handlers (root (setup_bootstrap st)) ≠ []).
  { unfold setup_bootstrap. simpl.
    destruct (handlers (root st)) as [|hd hs] eqn:Hhs.
    - simpl. rewrite Logger_addHandler_root. simpl. rewrite Hhs.
      unfold attach_handler. rewrite decide_False; [|apply not_elem_of_nil].
      split_and!; done.
    - rewrite Hhs. split_and!; done. }
  destruct Hboot as (Hkeep & Hnew & Hne).
  rewrite setup_unfold. unfold setup_trace, and_then.
  rewrite setup_before_outputs.
  rewrite (setup_add_outputs_spec outputs _ Hok). simpl.
  unfold Logger_setLevel. rewrite Hlvl. simpl.
  eexists _, _, _, _, _. split; [reflexivity|]. simpl.
  split_and!; try done.
  - apply attach_handlers_NoDup, NoDup_nil_2.
  - intros Hnd. by apply (attach_handlers_distinct _ []).
  - intros Hold Hin. apply Hmem in Hin as (o & Ho & Hhd).
    specialize (Hold o _ Ho Hhd). simpl in Hold. lia.
Qed.

Lemma setup_installs_outputs_witness :
  _checkLevel (AInt ERROR) = Ok ERROR ∧
  Forall (λ o, out_error o = None) sample_outputs ∧
  ∃ st1 st2 st3 st4 st',
    setup (AInt ERROR) sample_outputs (AStr "prog") sample_logging
    = (st', None) ∧
    (∀ hd, hd ∈ handlers (root st') ↔
           ∃ o, o ∈ sample_outputs ∧ hd ∈ out_handlers o) ∧
    NoDup (handlers (root st')) ∧
    (NoDup (mjoin (out_handlers <$> sample_outputs)) →
     handlers (root st') = mjoin (out_handlers <$> sample_outputs)) ∧
    ((∀ o hd, o ∈ sample_outputs → hd ∈ out_handlers o →
              (handler_id hd < next_handler sample_logging)%nat) →
     HandlerObj (next_handler sample_logging) ∉ handlers (root st')) ∧
    level (root st') = ERROR ∧
    excepthook st' = LoggingHook (AStr "prog") ∧
    setup_trace (AInt ERROR) sample_outputs (AStr "prog") sample_logging
    = ([st1; st2; st3; st4; st'], None) ∧
    (handlers (root sample_logging) ≠ [] → st1 = sample_logging) ∧
    (handlers (root sample_logging) = [] →
     handlers (root st1) = [HandlerObj (next_handler sample_logging)] ∧
     next_handler st1 = S (next_handler sample_logging)) ∧
    level (root st1) = level (root sample_logging) ∧
    excepthook st1 = excepthook sample_logging ∧
    handlers (root st1) ≠ [] ∧
    excepthook st2 = LoggingHook (AStr "prog") ∧
    root st2 = root st1 ∧
    handlers (root st3) = [] ∧
    level (root st3) = level (root sample_logging) ∧
    excepthook st3 = LoggingHook (AStr "prog") ∧
    handlers (root st4) = handlers (root st') ∧
    level (root st4) = level (root sample_logging) ∧
    excepthook st4 = LoggingHook (AStr "prog").
Proof.
  split; [reflexivity|]. split; [repeat constructor|].
  apply (setup_installs_outputs (AInt ERROR) ERROR sample_outputs
           (AStr "prog") sample_logging); [reflexivity | repeat constructor].
Defined.

(** ** Default log levels: claims C5 and C6 *)

Section level_facts.

Lemma append_nil_l (s : string) : "" ++ s = s.
Proof. reflexivity. Qed.

Lemma append_cons (c : ascii) (a s : string) :
  String c a ++ s = String c (a ++ s).
Proof. reflexivity. Qed.

Lemma strip_prefix_Some (sep s rest : string) :
  strip_prefix sep s = Some rest ↔ s = sep ++ rest.
Proof.
  revert s. induction sep as [|a sep IH]; intros s.
  - rewrite append_nil_l. simpl. split; [by intros [= ->] | by intros ->].
  - rewrite append_cons. simpl. destruct s as [|b s]; [done|].
    destruct (decide (a = b)) as [->|Hne].
    + rewrite IH. split; [by intros -> | by intros [= ->]].
    + split; [done | intros [= -> _]; done].
Qed.

(** [partition] finds an occurrence of the separator, and the leftmost one. *)
Lemma partition_Some (sep s a b : string) :
  partition sep s = Some (a, b) →
  s = a ++ sep ++ b ∧
  ∀ a' b', s = a' ++ sep ++ b' → (String.length a ≤ String.length a')%nat.
Proof.
  revert a b. induction s as [|c s IH]; intros a b; simpl.
  - destruct (strip_prefix sep "") as [rest|] eqn:Hp; [|done].
    intros [= <- <-]. rewrite append_nil_l.
    split; [by apply strip_prefix_Some|].
    intros a' b' _. simpl. lia.
  - destruct (strip_prefix sep (String c s)) as [rest|] eqn:Hp.
    + intros [= <- <-]. rewrite append_nil_l.
      split; [by apply strip_prefix_Some|].
      intros a' b' _. simpl. lia.
    + destruct (partition sep s) as [[a0 b0]|] eqn:Hs; [|done].
      intros [= <- <-]. destruct (IH a0 b0 eq_refl) as [Heq Hmin].
      split; [rewrite append_cons; by f_equal|].
      intros a' b' Ha'. destruct a' as [|c' a''].
      * rewrite append_nil_l in Ha'.
        apply strip_prefix_Some in Ha'. congruence.
      * rewrite append_cons in Ha'. injection Ha' as _ Ha'.
        specialize (Hmin a'' b' Ha'). simpl. lia.
Qed.

Lemma partition_None (sep s : string) :
  partition sep s = None → ∀ a b, s ≠ a ++ sep ++ b.
Proof.
  induction s as [|c s IH]; simpl.
  - destruct (strip_prefix sep "") as [rest|] eqn:Hp; [done|].
    intros _ a b Heq. destruct a as [|c a].
    + rewrite append_nil_l in Heq.
      apply strip_prefix_Some in Heq. congruence.
    + by rewrite append_cons in Heq.
  - destruct (strip_prefix sep (String c s)) as [rest|] eqn:Hp; [done|].
    destruct (partition sep s) as [[a0 b0]|] eqn:Hs; [done|].
    intros _ a b Heq. destruct a as [|c' a].
    + rewrite append_nil_l in Heq.
      apply strip_prefix_Some in Heq. congruence.
    + rewrite append_cons in Heq. injection Heq as _ Heq.
      by apply (IH eq_refl a b).
Qed.

Lemma get_set_logger_same (st : Logging) (key : logger_key) (lg : Logger) :
  get_logger (set_logger st key lg) key = lg.
Proof.
  destruct key as [n|]; simpl; [|done]. by rewrite lookup_insert_eq.
Qed.

Lemma get_set_logger_other (st : Logging) (key key' : logger_key) (lg : Logger) :
  key ≠ key' → get_logger (set_logger st key lg) key' = get_logger st key'.
Proof.
  intros Hne. destruct key as [n|], key' as [n'|]; simpl; try done.
  rewrite lookup_insert_ne; [done|]. congruence.
Qed.

Lemma upper_ascii_idemp (c : ascii) : upper_ascii (upper_ascii c) = upper_ascii c.
Proof.
  unfold upper_ascii.
  destruct ((97 <=? nat_of_ascii c)%nat && (nat_of_ascii c <=? 122)%nat) eqn:Hc.
  - apply andb_true_iff in Hc as [H1 H2].
    apply Nat.leb_le in H1. apply Nat.leb_le in H2.
    rewrite nat_ascii_embedding; [|lia].
    destruct ((97 <=? nat_of_ascii c - 32)%nat
              && (nat_of_ascii c - 32 <=? 122)%nat) eqn:Hd; [|done].
    apply andb_true_iff in Hd as [H3 _]. apply Nat.leb_le in H3. lia.
  - by rewrite Hc.
Qed.

Lemma upper_idemp (s : string) : upper (upper s) = upper s.
Proof.
  induction s as [|c s IH]; [done|]. simpl.
  by rewrite upper_ascii_idemp, IH.
Qed.

(** One round of the loop, for a well-formed pair. *)
Lemma set_level_item_pair (st : Logging) (name : string) (lvl : atom) (z : Z) :
  _checkLevel (normalize_level lvl) = Ok z →
  set_level_item st (Ok [AStr name; lvl])
  = Ok (set_logger st (platform_logger (Some name))
          (mkLogger z (handlers (get_logger st (platform_logger (Some name)))))).
Proof.
  intros Hz. unfold set_level_item. simpl. unfold Logger_setLevel.
  by rewrite Hz.
Qed.

Lemma for_each_round_ok {A} (body : Logging → A → Result Logging) x xs st st1 :
  body st x = Ok st1 →
  for_each_round body (x :: xs) st = for_each_round body xs st1.
Proof. simpl. by intros ->. Qed.

Lemma for_each_round_raise {A} (body : Logging → A → Result Logging) x xs st e :
  body st x = Raise e →
  for_each_round body (x :: xs) st = (st, Some e).
Proof. simpl. by intros ->. Qed.

Lemma split1_cases (pair separator : string) :
  separator ≠ "" →
  (∃ a b, split1 pair separator = Ok [AStr a; AStr b] ∧
          pair = a ++ separator ++ b ∧
          ∀ a' b', pair = a' ++ separator ++ b' →
                   (String.length a ≤ String.length a')%nat)
  ∨ (split1 pair separator = Ok [AStr pair] ∧
     ∀ a b, pair ≠ a ++ separator ++ b).
Proof.
  intros Hsep. unfold split1. rewrite decide_False; [|done].
  destruct (partition separator pair) as [[a b]|] eqn:Hp.
  - left. exists a, b. split; [done|]. by apply partition_Some.
  - right. split; [done|]. by apply partition_None.
Qed.

Lemma split1_absent (pair separator : string) :
  separator ≠ "" → (∀ a b, pair ≠ a ++ separator ++ b) →
  split1 pair separator = Ok [AStr pair].
Proof.
  intros Hsep Habs. destruct (split1_cases pair separator Hsep)
    as [(a & b & _ & Heq & _)|[Hs _]]; [|done].
  by destruct (Habs a b).
Qed.

(** The loop of [set_default_log_levels] over well-formed pairs whose levels
    the logging package accepts. *)
Lemma set_default_log_levels_pairs (pairs : list (string * atom)) :
  ∀ st : Logging,
  Forall (λ p, ∃ z, _checkLevel (normalize_level p.2) = Ok z) pairs →
  ∃ st',
    set_default_log_levels ((λ p, Ok [AStr p.1; p.2]) <$> pairs) st
    = (st', None) ∧
    (∀ i name lvl, pairs !! i = Some (name, lvl) →
       (∀ j p, (i < j)%nat → pairs !! j = Some p →
               platform_logger (Some p.1) ≠ platform_logger (Some name)) →
       _checkLevel (normalize_level lvl)
       = Ok (level (get_logger st' (platform_logger (Some name))))) ∧
    (∀ key, (∀ p, p ∈ pairs → platform_logger (Some p.1) ≠ key) →
            get_logger st' key = get_logger st key) ∧
    (∀ key, handlers (get_logger st' key) = handlers (get_logger st key)).
Proof.
  induction pairs as [|[name lvl] pairs IH]; intros st Hvalid.
  - exists st. split_and!; done.
  - apply Forall_cons in Hvalid as [[z Hz] Hvalid]. simpl in Hz.
    unfold set_default_log_levels. rewrite fmap_cons.
    rewrite (for_each_round_ok _ _ _ _ _ (set_level_item_pair st name lvl z Hz)).
    fold (set_default_log_levels ((λ p, Ok [AStr p.1; p.2]) <$> pairs)).
    set (key0 := platform_logger (Some name)).
    set (st1 := set_logger st key0 (mkLogger z (handlers (get_logger st key0)))).
    destruct (IH st1 Hvalid) as (st' & Hrun & Hlast & Hother & Hhs).
    exists st'. split_and!.
    + exact Hrun.
    + intros i name' lvl' Hi Hlater. destruct i as [|i].
      * simpl in Hi. injection Hi as <- <-. rewrite Hz. f_equal.
        rewrite Hother.
        -- unfold st1. by rewrite get_set_logger_same.
        -- intros p Hp. apply list_elem_of_lookup in Hp as [j Hj].
           apply (Hlater (S j) p); [lia | done].
      * simpl in Hi. apply (Hlast i name' lvl' Hi).
        intros j p Hij Hj. apply (Hlater (S j) p); [lia | done].
    + intros key Hkey. rewrite Hother.
      * unfold st1. apply get_set_logger_other.
        apply (Hkey (name, lvl)). by left.
      * intros p Hp. apply Hkey. by right.
    + intros key. rewrite Hhs. unfold st1.
      destruct (decide (key0 = key)) as [<-|Hne].
      * by rewrite get_set_logger_same.
      * by rewrite get_set_logger_other.
Qed.

Lemma level_meant_checkLevel (lvl : atom) (z : Z) :
  level_meant lvl = Some z ↔ _checkLevel (normalize_level lvl) = Ok z.
Proof.
  destruct lvl as [| b | n | s];
    unfold level_meant, normalize_level, _checkLevel.
  - split; discriminate.
  - split; intros [= H]; by rewrite H.
  - split; intros [= H]; by rewrite H.
  - destruct (assoc (upper s) _nameToLevel) as [w|]; split; try discriminate.
    + intros [= H]. by rewrite H.
    + intros [= H]. by rewrite H.
Qed.

Lemma upper_ascii_lt (c : ascii) :
  (nat_of_ascii (upper_ascii c) <? 128)%nat = (nat_of_ascii c <? 128)%nat.
Proof. destruct c as [[] [] [] [] [] [] [] []]; vm_compute; reflexivity. Qed.

Lemma upper_ascii_text (s : string) : ascii_text (upper s) = ascii_text s.
Proof.
  induction s as [|c s IH]; [done|]. cbn [upper ascii_text].
  by rewrite upper_ascii_lt, IH.
Qed.

(** A text that asks for a level is ASCII text, where [upper] is what
    [str.upper] does. *)
Lemma level_meant_ascii (s : string) :
  is_Some (level_meant (AStr s)) → ascii_text s = true.
Proof.
  intros [z Hz]. rewrite <- upper_ascii_text.
  unfold level_meant, _nameToLevel, assoc in Hz.
  repeat (destruct (decide (upper s = _)) as [->|_]; [reflexivity|]).
  discriminate.
Qed.

End level_facts.

(** C5: with a separator that is not empty, a string splits either into the
    text before and the text after the leftmost occurrence of the separator,
    or, when the separator does not occur in it, into the string alone.  A
    string that splits in two is applied as a (name, level) pair and the
    loop goes on; a string without the separator raises [ValueError] and
    leaves the logging state as it was.  For ["a=INFO"; "b=ERROR"] the level
    of logger [a] becomes [INFO] and that of logger [b] becomes [ERROR]. *)
Theorem parse_and_set_default_log_levels_spec (separator : string)
    (st : Logging) :
  separator ≠ "" →
  (∀ pair,
     (∃ a b, split1 pair separator = Ok [AStr a; AStr b] ∧
             pair = a ++ separator ++ b ∧
             ∀ a' b', pair = a' ++ separator ++ b' →
                      (String.length a ≤ String.length a')%nat)
     ∨ (split1 pair separator = Ok [AStr pair] ∧
        ∀ a b, pair ≠ a ++ separator ++ b)) ∧
  (∀ pair rest a b z,
     split1 pair separator = Ok [AStr a; AStr b] →
     _checkLevel (AStr (upper b)) = Ok z →
     parse_and_set_default_log_levels (pair :: rest) separator st
     = parse_and_set_default_log_levels rest separator
         (set_logger st (platform_logger (Some a))
            (mkLogger z (handlers (get_logger st (platform_logger (Some a))))))) ∧
  (∀ pair rest, (∀ a b, pair ≠ a ++ separator ++ b) →
     parse_and_set_default_log_levels (pair :: rest) separator st
     = (st, Some ValueError)) ∧
  (∃ st',
     parse_and_set_default_log_levels ["a=INFO"; "b=ERROR"] "=" st
     = (st', None) ∧
     level (get_logger st' (Some "a")) = INFO ∧
     level (get_logger st' (Some "b")) = ERROR ∧
     ∀ key, key ≠ Some "a" → key ≠ Some "b" →
            get_logger st' key = get_logger st key).
Proof.
  intros Hsep. split_and!.
  - intros pair. by apply split1_cases.
  - intros pair rest a b z Hsplit Hz.
    unfold parse_and_set_default_log_levels, set_default_log_levels.
    rewrite fmap_cons, Hsplit.
    by rewrite (for_each_round_ok _ _ _ _ _ (set_level_item_pair st a (AStr b) z Hz)).
  - intros pair rest Habs.
    unfold parse_and_set_default_log_levels, set_default_log_levels.
    rewrite fmap_cons, (split1_absent pair separator Hsep Habs).
    by apply for_each_round_raise.
  - destruct (set_default_log_levels_pairs
                [("a", AStr "INFO"); ("b", AStr "ERROR")] st)
      as (st' & Hrun & Hlast & Hother & _).
    { repeat constructor; eexists; reflexivity. }
    exists st'. split_and!.
    + exact Hrun.
    + assert (Ha : Ok INFO = Ok (level (get_logger st' (Some "a")))).
      { apply (Hlast 0%nat "a" (AStr "INFO") eq_refl).
        intros [|[|j]] q Hj Hq; [lia | | done].
        injection Hq as <-. done. }
      injection Ha as Ha. by symmetry.
    + assert (Hb : Ok ERROR = Ok (level (get_logger st' (Some "b")))).
      { apply (Hlast 1%nat "b" (AStr "ERROR") eq_refl).
        intros [|[|j]] q Hj Hq; [lia | lia | done]. }
      injection Hb as Hb. by symmetry.
    + intros key Ha Hb. apply Hother. intros q Hq.
      apply elem_of_cons in Hq as [->|Hq]; [by intros <-|].
      apply elem_of_cons in Hq as [->|Hq]; [by intros <-|].
      by apply elem_of_nil in Hq.
Qed.

Lemma parse_and_set_default_log_levels_spec_witness :
  "=" ≠ "" ∧
  (∀ pair rest, (∀ a b, pair ≠ a ++ "=" ++ b) →
     parse_and_set_default_log_levels (pair :: rest) "=" sample_logging
     = (sample_logging, Some ValueError)) ∧
  (∃ st',
     parse_and_set_default_log_levels ["a=INFO"; "b=ERROR"] "=" sample_logging
     = (st', None) ∧
     level (get_logger st' (Some "a")) = INFO ∧
     level (get_logger st' (Some "b")) = ERROR ∧
     ∀ key, key ≠ Some "a" → key ≠ Some "b" →
            get_logger st' key = get_logger sample_logging key).
Proof.
  split; [done|].
  pose proof (parse_and_set_default_log_levels_spec "=" sample_logging
                ltac:(done)) as (_ & _ & Hbad & Hgood).
  split; [exact Hbad | exact Hgood].
Defined.

(** C6: for a list of (name, level) pairs each of which asks for a level (a
    number, or a text that is a level name of the logging package with its
    letters in any case; such a text is ASCII text), [set_default_log_levels]
    returns; the level of each named logger is then the level that the last
    pair naming it asks for, loggers that no pair names are as before, and
    no handler list changes.  A text is applied as the level whose name it is in upper
    case: each level name, in upper case and in lower case, gives its own
    level, and [debug], [DEBUG] and [Debug] all give 10; a level given as a
    number is applied as it is. *)
Theorem set_default_log_levels_spec (pairs : list (string * atom))
    (st : Logging) :
  Forall (λ p, is_Some (level_meant p.2)) pairs →
  (∃ st',
     set_default_log_levels ((λ p, Ok [AStr p.1; p.2]) <$> pairs) st
     = (st', None) ∧
     (∀ i name lvl, pairs !! i = Some (name, lvl) →
        (∀ j p, (i < j)%nat → pairs !! j = Some p →
                platform_logger (Some p.1) ≠ platform_logger (Some name)) →
        level_meant lvl
        = Some (level (get_logger st' (platform_logger (Some name))))) ∧
     (∀ key, (∀ p, p ∈ pairs → platform_logger (Some p.1) ≠ key) →
             get_logger st' key = get_logger st key) ∧
     (∀ key, handlers (get_logger st' key) = handlers (get_logger st key))) ∧
  (∀ name s z, (s, z) ∈ (_nameToLevel ++ lower_level_names)%list →
     ∃ st', set_default_log_levels [Ok [AStr name; AStr s]] st = (st', None) ∧
            level (get_logger st' (platform_logger (Some name))) = z) ∧
  (∀ name s, s = "debug" ∨ s = "DEBUG" ∨ s = "Debug" →
     ∃ st', set_default_log_levels [Ok [AStr name; AStr s]] st = (st', None) ∧
            level (get_logger st' (platform_logger (Some name))) = 10%Z) ∧
  (∀ name z,
     ∃ st', set_default_log_levels [Ok [AStr name; AInt z]] st = (st', None) ∧
            level (get_logger st' (platform_logger (Some name))) = z) ∧
  (∀ p s, p ∈ pairs → p.2 = AStr s → ascii_text s = true).
Proof.
  intros Hvalid.
  assert (Hone : ∀ name lvl z, level_meant lvl = Some z →
     ∃ st', set_default_log_levels [Ok [AStr name; lvl]] st = (st', None) ∧
            level (get_logger st' (platform_logger (Some name))) = z).
  { intros name lvl z Hz. apply level_meant_checkLevel in Hz.
    unfold set_default_log_levels.
    rewrite (for_each_round_ok _ _ _ _ _ (set_level_item_pair st name _ _ Hz)).
    eexists. split; [reflexivity|]. by rewrite get_set_logger_same. }
  split_and!.
  - destruct (set_default_log_levels_pairs pairs st)
      as (st' & Hrun & Hlast & Hother & Hhs).
    { eapply Forall_impl; [exact Hvalid|]. intros p [z Hz].
      exists z. simpl. by apply level_meant_checkLevel. }
    exists st'. split_and!; [exact Hrun | | exact Hother | exact Hhs].
    intros i name lvl Hi Hlater. apply level_meant_checkLevel.
    by apply (Hlast i name lvl).
  - intros name s z Hin. apply Hone.
    unfold _nameToLevel, lower_level_names in Hin. simpl in Hin.
    repeat (apply elem_of_cons in Hin as [[= -> ->]|Hin]; [reflexivity|]).
    by apply elem_of_nil in Hin.
  - intros name s Hs. apply Hone. by destruct Hs as [-> | [-> | ->]].
  - intros name z. by apply Hone.
  - intros p s Hp Hs. apply level_meant_ascii. rewrite <- Hs.
    by apply (proj1 (Forall_forall _ _) Hvalid).
Qed.

Lemma set_default_log_levels_spec_witness :
  Forall (λ p : string * atom, is_Some (level_meant p.2))
    [("foo", AStr "debug"); ("bar", AInt 15); ("foo", AStr "Error")] ∧
  ∃ st',
    set_default_log_levels
      ((λ p : string * atom, Ok [AStr p.1; p.2])
         <$> [("foo", AStr "debug"); ("bar", AInt 15); ("foo", AStr "Error")])
      sample_logging
    = (st', None) ∧
    level_meant (AStr "Error")
    = Some (level (get_logger st' (platform_logger (Some "foo")))) ∧
    level_meant (AInt 15)
    = Some (level (get_logger st' (platform_logger (Some "bar")))) ∧
    (∀ key, handlers (get_logger st' key)
            = handlers (get_logger sample_logging key)).
Proof.
  assert (Hvalid : Forall (λ p : string * atom, is_Some (level_meant p.2))
            [("foo", AStr "debug"); ("bar", AInt 15); ("foo", AStr "Error")]).
  { repeat constructor; eexists; reflexivity. }
  split; [exact Hvalid|].
  destruct (set_default_log_levels_spec
              [("foo", AStr "debug"); ("bar", AInt 15); ("foo", AStr "Error")]
              sample_logging Hvalid)
    as ((st' & Hrun & Hlast & _ & Hhs) & _).
  exists st'. split_and!; [exact Hrun | | | exact Hhs].
  - apply (Hlast 2%nat "foo" (AStr "Error") eq_refl).
    intros [|[|[|j]]] q Hj Hq; first [lia | done].
  - apply (Hlast 1%nat "bar" (AInt 15) eq_refl).
    intros [|[|[|j]]] q Hj Hq; [lia | lia | | done].
    injection Hq as <-. done.
Defined.

(** ** The exception hook: claim C7 *)






(** * Further properties of the code *)

(** ** process *)

(** X1: when the value given under [extra] is a number, a boolean, [None]
    or a text that is not empty, [process] raises: [ValueError] for the
    text, [TypeError] for the others. *)
Theorem process_rejects_non_mapping_extra (self : KeywordArgumentAdapter)
    (msg : value) (lk : loc) (h : heap) (D K : dict) (a : atom) :
  h !! extra self = Some D →
  h !! lk = Some K →
  K !! "extra" = Some (VAtom a) →
  a ≠ AStr "" →
  process self msg lk h
  = Raise (match a with AStr _ => ValueError | _ => TypeError end).
Proof.
  intros HD HK Hx Ha.
  assert (Hfresh : h !! fresh (dom h) = None).
  { apply not_elem_of_dom. apply is_fresh. }
  assert (Hlk : lk ≠ fresh (dom h)) by (intros ->; congruence).
  unfold process. rewrite (deref_Some _ _ _ HD). simpl.
  rewrite (deref_Some _ lk K); [|by rewrite lookup_insert_ne]. simpl.
  rewrite decide_True; [|by eexists].
  unfold dict_pop. rewrite (deref_Some _ lk K); [|by rewrite lookup_insert_ne].
  simpl. rewrite Hx. simpl.
  destruct a as [| b | z | s]; try done.
  destruct s; [done|]. done.
Qed.

Lemma process_rejects_non_mapping_extra_witness :
  let K : dict := {[ "extra" := VInt 3; "user" := VInt 7 ]} in
  let h : heap := {[ 1%nat := sample_defaults; 2%nat := K ]} in
  h !! extra sample_adapter = Some sample_defaults ∧
  h !! 2%nat = Some K ∧
  K !! "extra" = Some (VInt 3) ∧
  AInt 3 ≠ AStr "" ∧
  process sample_adapter (VStr "m") 2 h = Raise TypeError.
Proof.
  intros K h.
  split; [reflexivity|]. split; [reflexivity|]. split; [reflexivity|].
  split; [discriminate|].
  apply (process_rejects_non_mapping_extra sample_adapter (VStr "m") 2 h
           sample_defaults K (AInt 3)); first [reflexivity | discriminate].
Defined.





(** X4: a call-site [exc_info] never becomes a structured field: unless the
    bound fields or the mapping passed as [extra] have a key of that name,
    the merged mapping has none, and the keywords keep theirs. *)
Theorem process_exc_info_not_a_field (self : KeywordArgumentAdapter)
    (msg : value) (lk : loc) (h : heap) (D K E : dict) :
  h !! extra self = Some D →
  h !! lk = Some K →
  extra_keyword h lk K E →
  D !! "exc_info" = None →
  E !! "exc_info" = None →
  ∃ h' lx M K',
    process self msg lk h = Ok (h', (msg, lk)) ∧
    h' !! lk = Some K' ∧ K' !! "extra" = Some (VRef lx) ∧ h' !! lx = Some M ∧
    M !! "exc_info" = None ∧
    K' !! "exc_info" = K !! "exc_info".
Proof.
  intros HD HK HE HDx HEx.
  destruct (process_spec self msg lk h D K E HD HK HE)
    as (h' & Hrun & _ & HM & HK' & _).
  eexists h', _, _, _.
  split_and!; [exact Hrun | exact HK' | by rewrite lookup_insert_eq | exact HM | | ].
  - rewrite lookup_insert_ne; [|done]. rewrite !lookup_union.
    unfold call_fields. rewrite lookup_delete_eq. by rewrite HDx, HEx.
  - rewrite lookup_insert_ne; [|done].
    destruct (K !! "exc_info") as [v|] eqn:Hv.
    + by apply map_lookup_filter_Some.
    + apply map_lookup_filter_None. by left.
Qed.

Lemma process_exc_info_not_a_field_witness :
  sample_heap !! extra sample_adapter = Some sample_defaults ∧
  sample_heap !! 2%nat = Some sample_kwargs ∧
  extra_keyword sample_heap 2 sample_kwargs sample_extra ∧
  sample_defaults !! "exc_info" = None ∧
  sample_extra !! "exc_info" = None ∧
  ∃ h' lx M K',
    process sample_adapter (VStr "m") 2 sample_heap
    = Ok (h', (VStr "m", 2%nat)) ∧
    h' !! 2%nat = Some K' ∧ K' !! "extra" = Some (VRef lx) ∧
    h' !! lx = Some M ∧
    M !! "exc_info" = None ∧
    K' !! "exc_info" = sample_kwargs !! "exc_info".
Proof.
  split; [reflexivity|]. split; [reflexivity|]. split; [reflexivity|].
  split; [reflexivity|]. split; [reflexivity|].
  apply (process_exc_info_not_a_field sample_adapter (VStr "m") 2 sample_heap
           sample_defaults sample_kwargs sample_extra); reflexivity.
Defined.

(** ** getLogger *)

(** X5: a request leaves every dictionary and every live adapter that
    existed before as it was, and every name keeps its live adapter.  When
    the name already has a live adapter, that adapter is returned, nothing is
    created or registered, and the keywords of the request are ignored. *)
Theorem getLogger_keeps_existing (st : Registry) (name : option string)
    (kwargs : dict) :
  reachable st →
  ∃ a st',
    getLogger name kwargs st = Ok (a, st') ∧
    (∀ l, is_Some (dicts st !! l) → dicts st' !! l = dicts st !! l) ∧
    (∀ b, is_Some (adapters st !! b) → adapters st' !! b = adapters st !! b) ∧
    (∀ n b, weak_get st n = Some b → weak_get st' n = Some b) ∧
    (∀ b, weak_get st name = Some b →
          a = b ∧ adapters st' = adapters st ∧ _LOGGERS st' = _LOGGERS st ∧
          next_adapter st' = next_adapter st).
Proof.
  intros Hreach. pose proof (reachable_inv st Hreach) as Hinv.
  assert (Hdicts : ∀ l, is_Some (dicts st !! l) →
                        (alloc (dicts st) kwargs).2 !! l = dicts st !! l).
  { intros l [d Hd]. unfold alloc. simpl. rewrite lookup_insert_ne; [done|].
    intros <-. assert (Hf : dicts st !! fresh (dom (dicts st)) = None)
      by (apply not_elem_of_dom, is_fresh). congruence. }
  destruct (weak_get st name) as [c|] eqn:Hw.
  - eexists _, _. split; [by apply getLogger_hit|]. simpl.
    split_and!; [exact Hdicts | done | | ].
    + intros n b Hn. apply weak_get_Some in Hn. by apply weak_get_Some.
    + intros b [= <-]. done.
  - eexists _, _. split; [by apply getLogger_miss|]. simpl.
    split_and!; [exact Hdicts | | | done].
    + intros b Hb. rewrite lookup_insert_ne; [done|].
      pose proof (inv_alive_bound st Hinv b Hb). lia.
    + intros n b Hn. assert (n ≠ name) by (intros ->; congruence).
      apply weak_get_Some in Hn as [Hreg Hlive].
      pose proof (inv_alive_bound st Hinv b Hlive).
      apply weak_get_Some. simpl. split.
      * by rewrite lookup_insert_ne.
      * rewrite lookup_insert_ne; [done | lia].
Qed.

Lemma getLogger_keeps_existing_witness :
  reachable sample_registry ∧
  weak_get sample_registry (Some "svc") = Some 0%nat ∧
  (∃ adapter, adapters sample_registry !! 0%nat = Some adapter ∧
              dicts sample_registry !! extra adapter
              = Some {[ "env" := VStr "prod" ]}) ∧
  ∃ a st',
    getLogger (Some "svc") {[ "env" := VStr "test" ]} sample_registry
    = Ok (a, st') ∧
    (∀ l, is_Some (dicts sample_registry !! l) →
          dicts st' !! l = dicts sample_registry !! l) ∧
    (∀ b, is_Some (adapters sample_registry !! b) →
          adapters st' !! b = adapters sample_registry !! b) ∧
    (∀ n b, weak_get sample_registry n = Some b → weak_get st' n = Some b) ∧
    (∀ b, weak_get sample_registry (Some "svc") = Some b →
          a = b ∧ adapters st' = adapters sample_registry ∧
          _LOGGERS st' = _LOGGERS sample_registry ∧
          next_adapter st' = next_adapter sample_registry).
Proof.
  assert (Hreach : reachable sample_registry).
  { eapply rtc_l; [|apply rtc_refl].
    apply (step_getLogger ∅ (Some "svc") {[ "env" := VStr "prod" ]}
             empty_registry 0%nat sample_registry).
    vm_compute. reflexivity. }
  split; [exact Hreach|].
  split; [vm_compute; reflexivity|].
  split; [eexists; split; vm_compute; reflexivity|].
  apply (getLogger_keeps_existing sample_registry (Some "svc")
           {[ "env" := VStr "test" ]} Hreach).
Defined.

(** X6: requests for two different names return two different adapters,
    both alive afterwards, also when both names stand for the same logger
    of the logging package (as [None] and the empty name do). *)
Theorem getLogger_distinct_names (st : Registry) (n1 n2 : option string)
    (k1 k2 : dict) :
  reachable st →
  n1 ≠ n2 →
  ∃ a st1 b st2,
    getLogger n1 k1 st = Ok (a, st1) ∧
    getLogger n2 k2 st1 = Ok (b, st2) ∧
    a ≠ b ∧
    is_Some (adapters st2 !! a) ∧ is_Some (adapters st2 !! b).
Proof.
  intros Hreach Hne. pose proof (reachable_inv st Hreach) as Hinv.
  destruct (getLogger_returns st n1 k1) as (a & st1 & Hrun1 & Hw1 & _).
  assert (Hinv1 : registry_inv st1) by (by eapply registry_inv_getLogger).
  destruct (getLogger_returns st1 n2 k2) as (b & st2 & Hrun2 & Hw2 & _).
  assert (Hinv2 : registry_inv st2) by (by eapply registry_inv_getLogger).
  assert (Hw1' : weak_get st2 n1 = Some a).
  { apply (pinned_step_keeps st1 st2 n1 a Hinv1 Hw1).
    by eapply step_getLogger. }
  apply weak_get_Some in Hw1' as [Hreg1 Hlive1].
  apply weak_get_Some in Hw2 as [Hreg2 Hlive2].
  exists a, st1, b, st2. split_and!; try done.
  intros ->. apply Hne. by eapply (inv_one_name st2 Hinv2).
Qed.

Lemma getLogger_distinct_names_witness :
  reachable empty_registry ∧
  (None : option string) ≠ Some "" ∧
  ∃ a st1 b st2,
    getLogger None ∅ empty_registry = Ok (a, st1) ∧
    getLogger (Some "") ∅ st1 = Ok (b, st2) ∧
    a ≠ b ∧
    is_Some (adapters st2 !! a) ∧ is_Some (adapters st2 !! b).
Proof.
  split; [apply rtc_refl|]. split; [done|].
  apply (getLogger_distinct_names empty_registry None (Some "") ∅ ∅);
    [apply rtc_refl | done].
Defined.

(** ** setup *)



(** X7: [setup] replaces the configuration that was there: for outputs that
    attach and a level that is accepted, the root logger and the hook it
    leaves are the same whatever the handlers, the level and the hook were
    before, the named loggers are not touched, and running it a second time
    with the same arguments changes nothing of these. *)
Theorem setup_replaces_configuration (lvl : atom) (z : Z)
    (outputs : list Output) (program_name : atom) :
  _checkLevel lvl = Ok z →
  Forall (λ o, out_error o = None) outputs →
  ∀ st1 st2 : Logging,
    let r1 := setup lvl outputs program_name st1 in
    let r2 := setup lvl outputs program_name st2 in
    let r11 := setup lvl outputs program_name r1.1 in
    r1.2 = None ∧ r11.2 = None ∧
    root r1.1 = root r2.1 ∧
    excepthook r1.1 = excepthook r2.1 ∧
    loggerDict r1.1 = loggerDict st1 ∧
    root r11.1 = root r1.1 ∧
    excepthook r11.1 = excepthook r1.1 ∧
    loggerDict r11.1 = loggerDict r1.1.
Proof.
  intros Hlvl Hok.
  assert (Hform : ∀ st, setup lvl outputs program_name st
    = (mkLogging
         (mkLogger z (foldl attach_handler [] (mjoin (out_handlers <$> outputs))))
         (loggerDict st) (LoggingHook program_name)
         (next_handler (setup_bootstrap st)), None)).
  { intros st. rewrite setup_unfold. rewrite setup_before_outputs.
    rewrite (setup_add_outputs_spec outputs _ Hok). simpl.
    unfold Logger_setLevel. by rewrite Hlvl. }
  intros st1 st2 r1 r2 r11. unfold r11, r1, r2.
  rewrite (Hform st1), (Hform st2). simpl. rewrite Hform. simpl. done.
Qed.

Lemma setup_replaces_configuration_witness :
  _checkLevel (AStr "INFO") = Ok INFO ∧
  Forall (λ o, out_error o = None) sample_outputs ∧
  let r1 := setup (AStr "INFO") sample_outputs ANone sample_logging in
  let r11 := setup (AStr "INFO") sample_outputs ANone r1.1 in
  r1.2 = None ∧ r11.2 = None ∧
  root r11.1 = root r1.1 ∧
  excepthook r11.1 = excepthook r1.1 ∧
  loggerDict r11.1 = loggerDict r1.1.
Proof.
  assert (Hok : Forall (λ o, out_error o = None) sample_outputs)
    by repeat constructor.
  split; [reflexivity|]. split; [exact Hok|].
  destruct (setup_replaces_configuration (AStr "INFO") INFO sample_outputs
              ANone eq_refl Hok sample_logging sample_logging)
    as (H1 & H2 & _ & _ & _ & H3 & H4 & H5).
  split_and!; [exact H1 | exact H2 | exact H3 | exact H4 | exact H5].
Defined.

(** X8: when an output raises, [setup] stops with that exception in a
    partly configured state: the hook is installed, the handlers that were
    on the root logger are gone, the outputs before the failing one are
    attached, those after it are not considered, and the level of the root
    logger is still the old one. *)
Theorem setup_output_failure (lvl : atom) (before after : list Output)
    (o : Output) (e : exn) (program_name : atom) (st : Logging) :
  Forall (λ o, out_error o = None) before →
  out_error o = Some e →
  ∃ st',
    setup lvl (before ++ o :: after) program_name st = (st', Some e) ∧
    handlers (root st')
    = foldl attach_handler [] (mjoin (out_handlers <$> before)) ∧
    level (root st') = level (root st) ∧
    excepthook st' = LoggingHook program_name ∧
    loggerDict st' = loggerDict st.
Proof.
  intros Hok Ho. rewrite setup_unfold. rewrite setup_before_outputs.
  unfold setup_add_outputs. rewrite for_each_round_app.
  fold (setup_add_outputs before
          (mkLogging (mkLogger (level (root st)) []) (loggerDict st)
             (LoggingHook program_name) (next_handler (setup_bootstrap st)))).
  rewrite (setup_add_outputs_spec before _ Hok).
  rewrite (for_each_round_raise _ o after _ e).
  2:{ unfold add_to_logger. by rewrite Ho. }
  simpl. eexists. split; [reflexivity|]. done.
Qed.

Lemma setup_output_failure_witness :
  Forall (λ o, out_error o = None) [mkOutput [HandlerObj 0] None] ∧
  out_error (mkOutput [HandlerObj 1] (Some OSError)) = Some OSError ∧
  ∃ st',
    setup (AInt ERROR)
      ([mkOutput [HandlerObj 0] None]
         ++ mkOutput [HandlerObj 1] (Some OSError)
         :: [mkOutput [HandlerObj 2] None])
      ANone sample_logging = (st', Some OSError) ∧
    handlers (root st')
    = foldl attach_handler []
        (mjoin (out_handlers <$> [mkOutput [HandlerObj 0] None])) ∧
    level (root st') = level (root sample_logging) ∧
    excepthook st' = LoggingHook ANone ∧
    loggerDict st' = loggerDict sample_logging.
Proof.
  split; [repeat constructor|]. split; [reflexivity|].
  apply (setup_output_failure (AInt ERROR) [mkOutput [HandlerObj 0] None]
           [mkOutput [HandlerObj 2] None]
           (mkOutput [HandlerObj 1] (Some OSError)) OSError ANone
           sample_logging); [repeat constructor | reflexivity].
Defined.

(** X9: a level that the logging package refuses makes [setup] raise only
    at its last step: the outputs are attached and the hook is installed
    by then, and the level of the root logger is still the old one.  Text
    is not put in upper case here, so a level name in lower case is
    refused. *)
Theorem setup_level_refused (lvl : atom) (e : exn) (outputs : list Output)
    (program_name : atom) (st : Logging) :
  _checkLevel lvl = Raise e →
  Forall (λ o, out_error o = None) outputs →
  ∃ st',
    setup lvl outputs program_name st = (st', Some e) ∧
    handlers (root st')
    = foldl attach_handler [] (mjoin (out_handlers <$> outputs)) ∧
    level (root st') = level (root st) ∧
    excepthook st' = LoggingHook program_name.
Proof.
  intros Hlvl Hok. rewrite setup_unfold. rewrite setup_before_outputs.
  rewrite (setup_add_outputs_spec outputs _ Hok). simpl.
  unfold Logger_setLevel. rewrite Hlvl. simpl.
  eexists. split; [reflexivity|]. done.
Qed.

Lemma setup_level_refused_witness :
  _checkLevel (AStr "error") = Raise ValueError ∧
  Forall (λ o, out_error o = None) sample_outputs ∧
  ∃ st',
    setup (AStr "error") sample_outputs ANone sample_logging
    = (st', Some ValueError) ∧
    handlers (root st')
    = foldl attach_handler [] (mjoin (out_handlers <$> sample_outputs)) ∧
    level (root st') = level (root sample_logging) ∧
    excepthook st' = LoggingHook ANone.
Proof.
  split; [reflexivity|]. split; [repeat constructor|].
  apply (setup_level_refused (AStr "error") ValueError sample_outputs ANone
           sample_logging); [reflexivity | repeat constructor].
Defined.

(** ** Default log levels *)

Section level_more.

Lemma append_length_inj (a a' x y : string) :
  String.length a = String.length a' → a ++ x = a' ++ y → a = a' ∧ x = y.
Proof.
  revert a'. induction a as [|c a IH]; intros [|c' a'] Hlen Heq;
    try discriminate.
  - done.
  - rewrite !append_cons in Heq. injection Heq as -> Heq.
    simpl in Hlen. injection Hlen as Hlen.
    destruct (IH a' Hlen Heq) as [-> ->]. done.
Qed.

(** A round of the loop changes nothing but the level of one logger. *)
Lemma set_level_item_frame (st st1 : Logging) (item : Result (list atom)) :
  set_level_item st item = Ok st1 →
  excepthook st1 = excepthook st ∧ next_handler st1 = next_handler st ∧
  ∀ key, handlers (get_logger st1 key) = handlers (get_logger st key).
Proof.
  unfold set_level_item. destruct item as [it|e]; [|done]. simpl.
  destruct it as [|lg [|lvl [|x it]]]; try done.
  destruct (logging_getLogger lg) as [key0|e]; [|done]. simpl.
  unfold Logger_setLevel.
  destruct (_checkLevel (normalize_level lvl)) as [rv|e]; [|done]. simpl.
  intros [= <-]. split_and!.
  - by destruct key0.
  - by destruct key0.
  - intros key. destruct (decide (key0 = key)) as [<-|Hne].
    + by rewrite get_set_logger_same.
    + by rewrite get_set_logger_other.
Qed.

End level_more.

(** X10: the levels of a list are set from left to right, and an exception
    stops the loop: handling [items1 ++ items2] is handling [items1] and, if
    that raised nothing, handling [items2] in the state it left; if it
    raised, the state it left and its exception are the outcome, and nothing
    of [items2] is applied. *)
Theorem set_default_log_levels_app (items1 items2 : iterable (list atom))
    (st : Logging) :
  set_default_log_levels (items1 ++ items2) st
  = match set_default_log_levels items1 st with
    | (st1, None) => set_default_log_levels items2 st1
    | (st1, Some e) => (st1, Some e)
    end.
Proof. unfold set_default_log_levels. apply for_each_round_app. Qed.

(** X11: whatever the items are, and whether or not an exception ends the
    loop, [set_default_log_levels] and [parse_and_set_default_log_levels]
    change levels only: the handlers of every logger, the exception hook and
    the handler objects that exist are as before. *)
Theorem set_default_log_levels_frame (items : iterable (list atom))
    (default_log_levels : list string) (separator : string) (st : Logging) :
  let unchanged (st' : Logging) :=
    excepthook st' = excepthook st ∧ next_handler st' = next_handler st ∧
    ∀ key, handlers (get_logger st' key) = handlers (get_logger st key) in
  unchanged (set_default_log_levels items st).1 ∧
  unchanged
    (parse_and_set_default_log_levels default_log_levels separator st).1.
Proof.
  assert (Hloop : ∀ (xs : iterable (list atom)) (s : Logging),
            excepthook (set_default_log_levels xs s).1 = excepthook s ∧
            next_handler (set_default_log_levels xs s).1 = next_handler s ∧
            ∀ key, handlers (get_logger (set_default_log_levels xs s).1 key)
                   = handlers (get_logger s key)).
  { unfold set_default_log_levels.
    induction xs as [|x xs IH]; intros s; simpl; [done|].
    destruct (set_level_item s x) as [s1|e] eqn:Hx; [|done].
    destruct (set_level_item_frame s s1 x Hx) as (H1 & H2 & H3).
    destruct (IH s1) as (I1 & I2 & I3).
    split_and!; [congruence | congruence |].
    intros key. by rewrite I3. }
  intros unchanged. split; [apply Hloop|].
  unfold parse_and_set_default_log_levels. apply Hloop.
Qed.

(** X12: joining a name and a level with the separator and splitting the
    result gives back the name and the level, provided the separator is not
    empty and does not occur in the joined text further left than at the end
    of the name; the level may itself contain the separator. *)
Theorem split1_join (name lvl separator : string) :
  separator ≠ "" →
  (∀ a b, name ++ separator ++ lvl = a ++ separator ++ b →
          (String.length name ≤ String.length a)%nat) →
  split1 (name ++ separator ++ lvl) separator = Ok [AStr name; AStr lvl].
Proof.
  intros Hsep Hfirst.
  destruct (split1_cases (name ++ separator ++ lvl) separator Hsep)
    as [(a & b & Hs & Heq & Hmin)|[_ Habs]].
  - rewrite Hs.
    assert (Hlen : String.length name = String.length a).
    { pose proof (Hfirst a b Heq). pose proof (Hmin name lvl eq_refl). lia. }
    destruct (append_length_inj name a _ _ Hlen Heq) as [<- Hrest].
    assert (Hsl : String.length separator = String.length separator) by done.
    destruct (append_length_inj separator separator _ _ Hsl Hrest) as [_ <-].
    done.
  - by destruct (Habs name lvl).
Qed.

Lemma split1_join_witness :
  "=" ≠ "" ∧
  (∀ a b, "a" ++ "=" ++ "INFO=x" = a ++ "=" ++ b →
          (String.length "a" ≤ String.length a)%nat) ∧
  split1 ("a" ++ "=" ++ "INFO=x") "=" = Ok [AStr "a"; AStr "INFO=x"].
Proof.
  assert (Hfirst : ∀ a b, "a" ++ "=" ++ "INFO=x" = a ++ "=" ++ b →
                          (String.length "a" ≤ String.length a)%nat).
  { intros [|c a] b Heq; [discriminate | simpl; lia]. }
  split; [done|]. split; [exact Hfirst|].
  apply (split1_join "a" "INFO=x" "="); [done | exact Hfirst].
Defined.

(** X13: an item that does not unpack into exactly two values raises
    [ValueError], and so does every string when the separator is empty; an
    exception raised while an item is produced is passed on.  In each case
    the state is the one before that item, and the items after it are not
    looked at. *)
Theorem set_default_log_levels_bad_item (item : list atom)
    (rest : iterable (list atom)) (st : Logging) :
  length item ≠ 2%nat →
  set_default_log_levels (Ok item :: rest) st = (st, Some ValueError) ∧
  (∀ e, set_default_log_levels (Raise e :: rest) st = (st, Some e)) ∧
  (∀ pair pairs,
     parse_and_set_default_log_levels (pair :: pairs) "" st
     = (st, Some ValueError)).
Proof.
  intros Hlen. split_and!.
  - unfold set_default_log_levels. apply for_each_round_raise.
    unfold set_level_item. simpl.
    destruct item as [|x [|y [|w item]]]; try done.
  - intros e. unfold set_default_log_levels. by apply for_each_round_raise.
  - intros pair pairs. unfold parse_and_set_default_log_levels,
      set_default_log_levels. rewrite fmap_cons.
    by apply for_each_round_raise.
Qed.

Lemma set_default_log_levels_bad_item_witness :
  length [AStr "a"; AStr "INFO"; AInt 3] ≠ 2%nat ∧
  set_default_log_levels
    [Ok [AStr "a"; AStr "INFO"; AInt 3]; Ok [AStr "b"; AStr "ERROR"]]
    sample_logging
  = (sample_logging, Some ValueError).
Proof.
  split; [simpl; lia|].
  apply (set_default_log_levels_bad_item [AStr "a"; AStr "INFO"; AInt 3]
           [Ok [AStr "b"; AStr "ERROR"]] sample_logging).
  simpl. lia.
Defined.

(** X14: a pair whose level the logging package refuses ([None], or an
    ASCII text that is not a level name once in upper case) raises the
    exception of the logging package; the pairs before it have been applied
    and stay applied, the pairs after it are not. *)
Theorem set_default_log_levels_refused_level
    (before after : list (string * atom)) (name : string) (lvl : atom)
    (e : exn) (st : Logging) :
  Forall (λ p, ∃ z, _checkLevel (normalize_level p.2) = Ok z) before →
  (∀ s, lvl = AStr s → ascii_text s = true) →
  _checkLevel (normalize_level lvl) = Raise e →
  ∃ st1,
    set_default_log_levels ((λ p, Ok [AStr p.1; p.2]) <$> before) st
    = (st1, None) ∧
    set_default_log_levels
      ((λ p, Ok [AStr p.1; p.2]) <$> (before ++ (name, lvl) :: after)%list) st
    = (st1, Some e).
Proof.
  intros Hvalid _ Hlvl.
  destruct (set_default_log_levels_pairs before st Hvalid)
    as (st1 & Hrun & _).
  exists st1. split; [exact Hrun|].
  rewrite fmap_app, fmap_cons. unfold set_default_log_levels in *.
  rewrite for_each_round_app, Hrun.
  apply for_each_round_raise. unfold set_level_item. simpl.
  unfold Logger_setLevel. by rewrite Hlvl.
Qed.

Lemma set_default_log_levels_refused_level_witness :
  Forall (λ p : string * atom, ∃ z, _checkLevel (normalize_level p.2) = Ok z)
    [("a", AStr "info")] ∧
  (∀ s, AStr "verbose" = AStr s → ascii_text s = true) ∧
  _checkLevel (normalize_level (AStr "verbose")) = Raise ValueError ∧
  ∃ st1,
    set_default_log_levels
      ((λ p : string * atom, Ok [AStr p.1; p.2]) <$> [("a", AStr "info")])
      sample_logging
    = (st1, None) ∧
    set_default_log_levels
      ((λ p : string * atom, Ok [AStr p.1; p.2])
         <$> ([("a", AStr "info")] ++ ("b", AStr "verbose")
                :: [("c", AStr "ERROR")])%list)
      sample_logging
    = (st1, Some ValueError).
Proof.
  assert (Hvalid : Forall (λ p : string * atom,
                             ∃ z, _checkLevel (normalize_level p.2) = Ok z)
                     [("a", AStr "info")]).
  { repeat constructor. eexists. reflexivity. }
  assert (Hascii : ∀ s, AStr "verbose" = AStr s → ascii_text s = true).
  { intros s [= <-]. reflexivity. }
  split; [exact Hvalid|]. split; [exact Hascii|]. split; [reflexivity|].
  apply (set_default_log_levels_refused_level [("a", AStr "info")]
           [("c", AStr "ERROR")] "b" (AStr "verbose") ValueError
           sample_logging Hvalid Hascii).
  reflexivity.
Defined.
